(** * bigbang-gallery: colour quantisation and gallery interaction

    A shallow embedding of the parts of the gallery scripts that the
    specification makes statements about:

    - [ColorExtractor] (effects/ColorExtractor.js): histogram, median cut,
      hex conversion, the fallback palettes, [analyzeImage] and the cached
      [extractColors];
    - [CosmicGallery.waitForImage] and the overlay handling of
      [CosmicGallery.showImageDetails] and [SimpleGallery.openLightbox]
      (js/gallery.js);
    - the lazy-loading observer of src/js/gallery.js and
      [SimpleGallery.fixImages].

    JavaScript numbers that are integers in the code are [Z]; arrays are
    lists; the object used as a dictionary in [getHistogram] is an
    association list in insertion order (the order [Object.values] follows);
    the [Map] used as a cache is a [gmap]. *)

From Stdlib Require Import ZArith List Lia Ascii String Sorted.
From stdpp Require Import base decidable option list gmap strings.
From Equations Require Import Equations.

Local Open Scope Z_scope.

(** ** JavaScript values shared by the modules *)
Module JS.

(** A number that is either an integer or [NaN] (the only non-integer the
    palette code produces is [0 / 0]). *)
Inductive num : Type :=
| Num (z : Z)
| NaN.

(** Errors that the modelled code can raise. *)
Inductive error : Type :=
| ReferenceError (name : string)
| TypeError (what : string).

(** Completion of a call: a normal return or a raised exception. *)
Inductive completion (A : Type) : Type :=
| Return (a : A)
| Throw (e : error).
Arguments Return {A} a.
Arguments Throw {A} e.

(** [ToInt32]: reduce modulo 2^32 into [-2^31, 2^31). *)
Definition toInt32 (z : Z) : Z := (z + 2 ^ 31) mod 2 ^ 32 - 2 ^ 31.

(** [a << n] on numbers. *)
Definition shl (a n : Z) : Z := toInt32 (Z.shiftl (toInt32 a) (n mod 32)).

(** [a & b] on numbers. *)
Definition band (a b : Z) : Z := toInt32 (Z.land (toInt32 a) (toInt32 b)).

(** [Array.prototype.sort(cmp)]: the comparator returns a number whose sign
    orders the two arguments. *)
Definition sort_fn : Type := forall A : Type, (A -> A -> Z) -> list A -> list A.

(** Insertion of [x] in front of the first element that does not come
    before it. *)
Fixpoint insert_sorted {A : Type} (cmp : A -> A -> Z) (x : A) (l : list A) : list A :=
  match l with
  | [] => [x]
  | y :: l' => if cmp x y <=? 0 then x :: y :: l' else y :: insert_sorted cmp x l'
  end.

(** The reference model of [Array.prototype.sort]: a stable insertion sort
    (ECMAScript 2019 requires the sort to be stable). *)
Definition stable_sort : sort_fn :=
  fun A cmp l => foldr (insert_sorted cmp) [] l.

(** Insertion of [x] behind the last element that does not come after
    it. *)
Fixpoint insert_behind {A : Type} (cmp : A -> A -> Z) (x : A) (l : list A) : list A :=
  match l with
  | [] => [x]
  | y :: l' => if cmp y x <=? 0 then y :: insert_behind cmp x l' else x :: y :: l'
  end.

(** Another stable sort, which takes the elements from the front and grows
    the result from the left. *)
Definition forward_sort : sort_fn :=
  fun A cmp l => fold_left (fun acc x => insert_behind cmp x acc) l [].

(** What ECMAScript requires of the result [l'] of sorting [l] with a
    comparator [cmp]: ascending for [cmp], a rearrangement of [l], and
    elements that compare equal keep their relative order. *)
Record sorted_result {A : Type} (cmp : A -> A -> Z) (l l' : list A) : Prop := {
  sr_sorted : StronglySorted (fun a b => cmp a b <= 0) l';
  sr_perm : l ≡ₚ l';
  sr_stable : forall x, filter (fun y => cmp x y = 0) l' = filter (fun y => cmp x y = 0) l
}.

(** A comparator of the shape [(a, b) => key(a) - key(b)]. *)
Definition by_key {A : Type} (key : A -> Z) (cmp : A -> A -> Z) : Prop :=
  forall a b, cmp a b = key a - key b.

(** A conforming engine: its sort meets the requirement for every
    comparator that subtracts keys. *)
Definition conforming (sort : sort_fn) : Prop :=
  forall (A : Type) (key : A -> Z) (cmp : A -> A -> Z) (l : list A),
    by_key key cmp -> sorted_result cmp l (sort A cmp l).

End JS.

(** ** effects/ColorExtractor.js *)
Module ColorExtractor.
Import JS.

(** A sampled pixel [[r, g, b]]. *)
Record Pixel : Type := mkPixel { pxR : Z; pxG : Z; pxB : Z }.

#[global] Instance Pixel_eq_dec : EqDecision Pixel.
Proof. solve_decision. Defined.

(** [pixel[d]] for [d] in 0, 1, 2. *)
Definition channel (d : nat) (p : Pixel) : Z :=
  match d with
  | 0%nat => pxR p
  | 1%nat => pxG p
  | _ => pxB p
  end.

(** An entry of the histogram: [{ color, count, pixels }]. *)
Record HistItem : Type := mkItem {
  color : Pixel;
  count : Z;
  pixels : list Pixel
}.

(** A box of the median cut is an array of histogram entries. *)
Definition Box : Type := list HistItem.

(** [this.colorBuckets] *)
Definition colorBuckets : Z := 16.

(** The histogram key of a pixel. The code builds the string
    [`${qr},${qg},${qb}`]; that string determines the three quantised
    channels and is determined by them, so the triple stands for it. *)
Definition bucketKey (p : Pixel) : Z * Z * Z :=
  (pxR p / colorBuckets * colorBuckets,
   pxG p / colorBuckets * colorBuckets,
   pxB p / colorBuckets * colorBuckets).

(** One iteration of the [forEach] of [getHistogram]: create the entry of
    the key when it is missing (at the end: the property is new), then
    count the pixel and append it. *)
Fixpoint addPixel (key : Z * Z * Z) (p : Pixel)
    (histogram : list (Z * Z * Z * HistItem)) : list (Z * Z * Z * HistItem) :=
  match histogram with
  | [] => [(key, mkItem p (0 + 1) ([] ++ [p]))]
  | (k, it) :: rest =>
      if decide (k = key)
      then (k, mkItem (color it) (count it + 1) (pixels it ++ [p])) :: rest
      else (k, it) :: addPixel key p rest
  end.

(** The [forEach] of [getHistogram], from the object [h]. *)
Definition keyed (pixelArray : list Pixel) (h : list (Z * Z * Z * HistItem))
    : list (Z * Z * Z * HistItem) :=
  fold_left (fun h p => addPixel (bucketKey p) p h) pixelArray h.

(** [getHistogram(pixelArray)]; the result is [Object.values(histogram)]. *)
Definition getHistogram (pixelArray : list Pixel) : Box :=
  map snd (keyed pixelArray []).

(** All pixels of a box, in the order of the nested [forEach]. *)
Definition boxPixels (box : Box) : list Pixel :=
  concat (map pixels box).

(** Running minimum and maximum of one channel, from [255] and [0]. *)
Definition minOf (d : nat) (ps : list Pixel) : Z :=
  fold_left (fun m p => Z.min m (channel d p)) ps 255.
Definition maxOf (d : nat) (ps : list Pixel) : Z :=
  fold_left (fun m p => Z.max m (channel d p)) ps 0.
Definition rangeOf (d : nat) (ps : list Pixel) : Z :=
  maxOf d ps - minOf d ps.

(** [getColorVolume(box)] *)
Definition getColorVolume (box : Box) : Z :=
  match box with
  | [] => 0
  | _ => rangeOf 0 (boxPixels box) * rangeOf 1 (boxPixels box) * rangeOf 2 (boxPixels box)
  end.

(** The dimension [splitBox] sorts on. *)
Definition sortDimension (ps : list Pixel) : nat :=
  let rRange := rangeOf 0 ps in
  let gRange := rangeOf 1 ps in
  let bRange := rangeOf 2 ps in
  if (gRange >? rRange) && (gRange >? bRange) then 1%nat
  else if (bRange >? rRange) && (bRange >? gRange) then 2%nat
  else 0%nat.

(** [Math.round(total / count)] for integers [total >= 0] and [count > 0]:
    the quotient is rounded to the nearest integer, halves upwards. With
    [count = 0] the quotient [0 / 0] is [NaN]. (The double nearest to
    [total / count] rounds to the same integer as the exact quotient: a
    quotient that is not a half-integer is at least [1 / (2 * count)] away
    from one.) *)
Definition roundDiv (total cnt : Z) : num :=
  if cnt =? 0 then NaN else Num ((2 * total + cnt) / (2 * cnt)).

(** [getAverageColor(box)] *)
Definition getAverageColor (box : Box) : num * num * num :=
  let ps := boxPixels box in
  let totalR := fold_left (fun t p => t + pxR p) ps 0 in
  let totalG := fold_left (fun t p => t + pxG p) ps 0 in
  let totalB := fold_left (fun t p => t + pxB p) ps 0 in
  let cnt := fold_left (fun c _ => c + 1) ps 0 in
  (roundDiv totalR cnt, roundDiv totalG cnt, roundDiv totalB cnt).

(** The search for the box with the largest volume in [medianCut]: the
    [for] loop from index [i] over the remaining boxes, keeping the first
    box whose volume is strictly larger than every earlier one. *)
Fixpoint largestFrom (rest : list Box) (i : nat) (largestIndex : nat)
    (largestVolume : Z) : nat :=
  match rest with
  | [] => largestIndex
  | box :: rest' =>
      let volume := getColorVolume box in
      if volume >? largestVolume
      then largestFrom rest' (S i) i volume
      else largestFrom rest' (S i) largestIndex largestVolume
  end.

Definition largestIndex (boxes : list Box) : nat :=
  match boxes with
  | [] => 0%nat
  | box0 :: rest => largestFrom rest 1 0 (getColorVolume box0)
  end.

(** [boxes.splice(i, 1, box1, box2)] *)
Definition splice2 (boxes : list Box) (i : nat) (box1 box2 : Box) : list Box :=
  take i boxes ++ box1 :: box2 :: drop (S i) boxes.

Section Engine.
(** The engine's [Array.prototype.sort]. *)
Variable sort : sort_fn.

(** [splitBox(box)] *)
Definition splitBox_on (box : Box) : Box * Box :=
  match box with
  | [] => ([], [])
  | _ =>
      let allPixels := boxPixels box in
      let d := sortDimension allPixels in
      let sorted := sort Pixel (fun a b => channel d a - channel d b) allPixels in
      let medianIndex := (length sorted / 2)%nat in
      (getHistogram (take medianIndex sorted), getHistogram (drop medianIndex sorted))
  end.

(** The body of the [while] loop of [medianCut]. *)
Definition cutOnce_on (boxes : list Box) : list Box :=
  let i := largestIndex boxes in
  let '(box1, box2) := splitBox_on (nth i boxes []) in
  splice2 boxes i box1 box2.

(** [while (boxes.length < colorCount) { ... }] *)
Equations? cutLoop_on (boxes : list Box) (colorCount : Z) : list Box
  by wf (Z.to_nat (colorCount - Z.of_nat (length boxes))) lt :=
  cutLoop_on boxes colorCount with Z_lt_dec (Z.of_nat (length boxes)) colorCount => {
    | left _ := cutLoop_on (cutOnce_on boxes) colorCount;
    | right _ := boxes }.
Proof.
  unfold cutOnce_on. destruct (splitBox_on _) as [b1 b2].
  unfold splice2. rewrite length_app. simpl. rewrite length_take, length_drop.
  lia.
Qed.

(** [medianCut(pixelArray, colorCount)] *)
Definition medianCut_on (pixelArray : list Pixel) (colorCount : Z)
    : list (num * num * num) :=
  let histogram := getHistogram pixelArray in
  if Z.of_nat (length histogram) <=? colorCount
  then map (fun h => (Num (pxR (color h)), Num (pxG (color h)), Num (pxB (color h))))
           histogram
  else
    let histogram := sort HistItem (fun a b => count b - count a) histogram in
    map getAverageColor (cutLoop_on [histogram] colorCount).
End Engine.

Definition splitBox : Box -> Box * Box := splitBox_on stable_sort.
Definition cutOnce : list Box -> list Box := cutOnce_on stable_sort.
Definition cutLoop : list Box -> Z -> list Box := cutLoop_on stable_sort.
Definition medianCut : list Pixel -> Z -> list (num * num * num) :=
  medianCut_on stable_sort.

(** *** Colour utility functions *)

(** The digit of [Number.prototype.toString(16)] for a value below 16. *)
Definition hexDigit (d : Z) : ascii :=
  match d with
  | 0 => "0" | 1 => "1" | 2 => "2" | 3 => "3" | 4 => "4" | 5 => "5"
  | 6 => "6" | 7 => "7" | 8 => "8" | 9 => "9" | 10 => "a" | 11 => "b"
  | 12 => "c" | 13 => "d" | 14 => "e" | _ => "f"
  end%char.

(** The hexadecimal digits of a non-negative integer, most significant
    first, in front of [acc]. *)
Equations? hexDigits (n : Z) (acc : string) : string by wf (Z.to_nat n) lt :=
  hexDigits n acc with Z_lt_dec 0 (n / 16) => {
    | left _ := hexDigits (n / 16) (String (hexDigit (n mod 16)) acc);
    | right _ := String (hexDigit (n mod 16)) acc }.
Proof.
  assert (16 <= n) by (destruct (Z_lt_dec n 16) as [Hn|Hn]; [|lia];
    destruct (Z_lt_dec n 0); [assert (n / 16 < 0) by (apply Z.div_lt_upper_bound; lia); lia|];
    rewrite Z.div_small in l; lia).
  assert (n / 16 < n) by (apply Z.div_lt; lia).
  lia.
Qed.

(** [x.toString(16)] *)
Definition toString16 (x : num) : string :=
  match x with
  | NaN => "NaN"
  | Num z => if z <? 0 then String "-" (hexDigits (- z) "") else hexDigits z ""
  end.

(** The callback of the [map] in [rgbToHex]. *)
Definition hexPair (x : num) : string :=
  let hex := toString16 x in
  if Nat.eqb (String.length hex) 1 then String "0" hex else hex.

(** [rgbToHex(r, g, b)] *)
Definition rgbToHex (r g b : num) : string :=
  String "#" (hexPair r ++ hexPair g ++ hexPair b).

Section Palette.
(** The remaining fields of a colour object ([hsl], [brightness],
    [saturation], [threeColor]) are computed in double-precision
    arithmetic and by THREE.Color from [r], [g], [b] alone; they are kept
    abstract, as a function of the three channels. *)
Context {Extra : Type}.
Variable derive : num -> num -> num -> Extra.
(** The literal [hsl], [brightness], [saturation] and [threeColor] of the
    single entry of [getDefaultPalette]. *)
Variable defaultExtra : Extra.

(** A colour object of a palette. *)
Record ColorObject : Type := mkColor {
  rgb : num * num * num;
  hex : string;
  extra : Extra
}.

Definition Palette : Type := list ColorObject.

(** The object built for a colour [[r, g, b]] in [analyzeImage] and in
    [getDefaultPaletteVariation]. *)
Definition colorObject (c : num * num * num) : ColorObject :=
  let '(r, g, b) := c in
  mkColor (r, g, b) (rgbToHex r g b) (derive r g b).

(** [getDefaultPalette()] *)
Definition getDefaultPalette : Palette :=
  [mkColor (Num 99, Num 102, Num 241) "#6366f1" defaultExtra].

(** The theme palettes of [getDefaultPaletteVariation]. *)
Definition palettes : list (list (Z * Z * Z)) :=
  [ [(99, 102, 241); (236, 72, 153); (168, 85, 247); (129, 140, 248); (244, 114, 182)];
    [(59, 130, 246); (34, 197, 94); (6, 182, 212); (96, 165, 250); (52, 211, 153)];
    [(251, 146, 60); (239, 68, 68); (245, 158, 11); (254, 202, 202); (254, 215, 170)];
    [(31, 41, 55); (79, 70, 229); (236, 72, 153); (17, 24, 39); (249, 168, 212)];
    [(16, 185, 129); (99, 102, 241); (217, 70, 239); (34, 197, 94); (147, 51, 234)] ].

(** [b.charCodeAt(0)] for a one-character string. Strings are sequences
    of 8-bit characters here, which covers the serialised URL that an
    image carries in [src]. *)
Definition charCode (c : ascii) : Z := Z.of_N (N_of_ascii c).

(** The reducer of the hash: [a = ((a << 5) - a) + code; return a & a]. *)
Definition hashStep (a : Z) (c : ascii) : Z :=
  let a := shl a 5 - a + charCode c in
  band a a.

Definition hashOf (imageSrc : string) : Z :=
  fold_left hashStep (list_ascii_of_string imageSrc) 0.

(** [Math.abs(hash) % palettes.length] *)
Definition paletteIndex (imageSrc : string) : Z :=
  Z.rem (Z.abs (hashOf imageSrc)) (Z.of_nat (length palettes)).

(** [getDefaultPaletteVariation(imageSrc)]: [selectedPalette.map] raises
    a [TypeError] if the index selects no palette. *)
Definition getDefaultPaletteVariation (imageSrc : string) : completion Palette :=
  match palettes !! Z.to_nat (paletteIndex imageSrc) with
  | Some selectedPalette =>
      Return (map (fun c : Z * Z * Z =>
                     let '(r, g, b) := c in colorObject (Num r, Num g, Num b))
                  selectedPalette)
  | None => Throw (TypeError "selectedPalette is undefined")
  end.

(** *** Images and pixel access *)

(** One pixel of [imageData.data]: four consecutive bytes r, g, b, a. *)
Record RGBA : Type := mkRGBA { red : Z; green : Z; blue : Z; alpha : Z }.

(** What drawing a source on the 128 x 128 canvas and reading the canvas
    back does: it yields the pixel data, or [drawImage] or [getImageData]
    raises (a canvas tainted by a cross-origin image, a source that
    cannot be drawn). *)
Inductive CanvasRead : Type :=
| PixelData (data : list RGBA)
| Raises.

(** The properties of the [image] argument that the extractor reads:
    [image.src] and [image.uuid] ([None] is [undefined]);
    [image.material.map] when both exist, holding what [map.image] is
    ([None]: a falsy [image]); and what drawing the object itself does. *)
Record Image : Type := mkImage {
  src : option string;
  uuid : option string;
  materialMap : option (option CanvasRead);
  drawable : CanvasRead
}.

(** The options of [extractColors]; [None] is a property left out. The
    sampling stride [quality] is a positive integer. *)
Record Options : Type := mkOptions {
  optCount : option Z;
  optQuality : option positive;
  optUseCache : option bool
}.

(** The sampling loop of [analyzeImage]:
    [for (i = 0; i < pixels.length; i += quality * 4)], that is every
    [quality]-th pixel, skipping those with [a < 125]. *)
Equations? samplePixels (pixels : list RGBA) (quality : positive) : list Pixel
  by wf (length pixels) lt :=
  samplePixels [] quality := [];
  samplePixels (p :: rest) quality :=
    let later := samplePixels (drop (Pos.to_nat quality) (p :: rest)) quality in
    if alpha p <? 125 then later
    else mkPixel (red p) (green p) (blue p) :: later.
Proof.
  rewrite length_drop. simpl. lia.
Qed.

(** The part of [analyzeImage] after the [try] statement, given the
    array that the identifier [pixels] denotes there. *)
Definition analyzePixels (pixels : list RGBA) (colorCount : Z) (quality : positive)
    : Palette :=
  let pixelArray := samplePixels pixels quality in
  let colorMap := medianCut pixelArray colorCount in
  map colorObject colorMap.

(** [analyzeImage(image, colorCount, quality)].

    [const pixels] is declared inside the block of the [try] statement,
    so the sampling loop after that block does not see it: there the
    identifier [pixels] is looked up in the enclosing scopes.
    [enclosing] is what that lookup finds ([None]: no binding, the
    reference raises a [ReferenceError]). *)
Definition analyzeImage_in (enclosing : option (list RGBA))
    (image : Image) (colorCount : Z) (quality : positive) : completion Palette :=
  let img :=
    match materialMap image with
    | Some mapImage => mapImage
    | None => Some (drawable image)
    end in
  match img with
  | None => Return getDefaultPalette
  | Some (Raises) =>
      getDefaultPaletteVariation
        (match src image with
         | Some s => if decide (s = "") then "" else s
         | None => ""
         end)
  | Some (PixelData _) =>
      match enclosing with
      | None => Throw (ReferenceError "pixels")
      | Some pixels => Return (analyzePixels pixels colorCount quality)
      end
  end.

(** ColorExtractor.js is a module and declares no [pixels] outside
    [analyzeImage], and no script of the repository defines a global of
    that name. *)
Definition moduleScopePixels : option (list RGBA) := None.

Definition analyzeImage : Image -> Z -> positive -> completion Palette :=
  analyzeImage_in moduleScopePixels.

(** *** The cache and [extractColors] *)

(** [image.src || image.uuid]; [None] is the key [undefined]. *)
Definition cacheKey (image : Image) : option string :=
  match src image with
  | Some s => if decide (s = "") then uuid image else Some s
  | None => uuid image
  end.

(** A call of [extractColors] suspended at
    [await this.analyzeImage(...)]: [analyzeImage] contains no [await],
    so the promise it returned is settled already. *)
Record Suspended : Type := mkSuspended {
  suspUseCache : bool;
  suspKey : option string;
  suspAnalysis : completion Palette
}.

(** The extractor: [this.colorCache], and the calls of [extractColors]
    that wait to be resumed. *)
Record Extractor : Type := mkExtractor {
  colorCache : gmap (option string) Palette;
  suspended : list Suspended
}.

(** The state after the constructor. *)
Definition newExtractor : Extractor := mkExtractor ∅ [].

(** [extractColors(image, options)] up to its [await]: either the call
    returns the cached palette at once, or it runs [analyzeImage] and is
    suspended. *)
Definition extractColors_call (image : Image) (options : Options) (s : Extractor)
    : option Palette * Extractor :=
  let count := default 5 (optCount options) in
  let quality := default 10%positive (optQuality options) in
  let useCache := default true (optUseCache options) in
  let key := cacheKey image in
  match (if useCache then colorCache s !! key else None) with
  | Some cached => (Some cached, s)
  | None =>
      (None,
       mkExtractor (colorCache s)
         (suspended s ++ [mkSuspended useCache key (analyzeImage image count quality)]))
  end.

(** The rest of [extractColors] when the [n]-th suspended call is
    resumed: a rejected [analyzeImage] rejects the call; otherwise the
    palette is cached if asked for, and returned. *)
Definition extractColors_resume (n : nat) (s : Extractor)
    : option (completion Palette) * Extractor :=
  match suspended s !! n with
  | None => (None, s)
  | Some call =>
      let rest := delete n (suspended s) in
      match suspAnalysis call with
      | Throw e => (Some (Throw e), mkExtractor (colorCache s) rest)
      | Return colors =>
          (Some (Return colors),
           mkExtractor
             (if suspUseCache call then <[suspKey call := colors]> (colorCache s)
              else colorCache s)
             rest)
      end
  end.

(** [extractColors(image, options)] from its start to its end, when
    nothing else runs during its [await]. *)
Definition extractColors (image : Image) (options : Options) (s : Extractor)
    : completion Palette * Extractor :=
  let count := default 5 (optCount options) in
  let quality := default 10%positive (optQuality options) in
  let useCache := default true (optUseCache options) in
  let key := cacheKey image in
  match (if useCache then colorCache s !! key else None) with
  | Some cached => (Return cached, s)
  | None =>
      match analyzeImage image count quality with
      | Throw e => (Throw e, s)
      | Return colors =>
          (Return colors,
           mkExtractor
             (if useCache then <[key := colors]> (colorCache s) else colorCache s)
             (suspended s))
      end
  end.


(** What happens to an extractor during a session: a call of
    [extractColors] starts, or a suspended call is resumed. *)
Inductive Op : Type :=
| Call (image : Image) (options : Options)
| Resume (n : nat).

Definition step (s : Extractor) (o : Op) : Extractor :=
  match o with
  | Call image options => snd (extractColors_call image options s)
  | Resume n => snd (extractColors_resume n s)
  end.

Definition run (ops : list Op) (s : Extractor) : Extractor :=
  fold_left step ops s.

(** An [<img>] element of the page, as [loadGalleryImages] hands it to
    [extractColors(img)]: it has a [src] string and neither [uuid] nor
    [material]. *)
Definition imgElement (address : string) (read : CanvasRead) : Image :=
  mkImage (Some address) None None read.





(** No suspended call is about to cache a palette under [key]. *)
Definition noneInFlight (key : option string) (s : Extractor) : Prop :=
  forall call, call ∈ suspended s -> suspUseCache call = true -> suspKey call <> key.

End Palette.

End ColorExtractor.

(** ** js/gallery.js: the cosmic gallery controller *)
Module CosmicGallery.

(** The state of the promise made by [waitForImage]. *)
Inductive PromiseState : Type :=
| Pending
| Fulfilled
| Rejected.

(** [waitForImage] after its executor ran: the promise, the clock in
    milliseconds, the time at which the pending [setTimeout] callback is
    due ([None]: no timer, or cleared), and whether the [once] listeners
    for [load] and [error] are still attached. *)
Record Waiting : Type := mkWaiting {
  promise : PromiseState;
  now : Z;
  timeoutId : option Z;
  onLoad : bool;
  onError : bool
}.

(** [resolve()]: settles a pending promise, and does nothing to a settled
    one. *)
Definition resolve (w : Waiting) : Waiting :=
  mkWaiting (match promise w with Pending => Fulfilled | p => p end)
            (now w) (timeoutId w) (onLoad w) (onError w).

(** [clearTimeout(timeoutId)] *)
Definition clearTimeout (w : Waiting) : Waiting :=
  mkWaiting (promise w) (now w) None (onLoad w) (onError w).

(** [waitForImage(img, timeout)], started at time [0]; [complete] is
    [img.complete]. A negative delay counts as zero. *)
Definition waitForImage (complete : bool) (timeout : Z) : Waiting :=
  if complete
  then resolve (mkWaiting Pending 0 None false false)
  else mkWaiting Pending 0 (Some (Z.max 0 timeout)) true true.

(** What the browser does next: time passes, or the image fires [load] or
    [error]. *)
Inductive ImageEvent : Type :=
| Elapse (ms : N)
| Load
| Error.

(** The timer callback: [resolve()]. *)
Definition fireTimer (w : Waiting) : Waiting :=
  match timeoutId w with
  | Some due => if due <=? now w then resolve (clearTimeout w) else w
  | None => w
  end.

(** [handleLoad] and [handleError], each attached with [{ once: true }]. *)
Definition deliver (w : Waiting) (e : ImageEvent) : Waiting :=
  match e with
  | Elapse ms =>
      fireTimer (mkWaiting (promise w) (now w + Z.of_N ms) (timeoutId w) (onLoad w) (onError w))
  | Load =>
      if onLoad w
      then let w := resolve (clearTimeout w) in
           mkWaiting (promise w) (now w) (timeoutId w) false (onError w)
      else w
  | Error =>
      if onError w
      then let w := resolve (clearTimeout w) in
           mkWaiting (promise w) (now w) (timeoutId w) (onLoad w) false
      else w
  end.

Definition after (events : list ImageEvent) (w : Waiting) : Waiting :=
  fold_left deliver events w.

(** The time that a sequence of events takes. *)
Definition elapsed (events : list ImageEvent) : Z :=
  fold_left (fun t e => match e with Elapse ms => t + Z.of_N ms | _ => t end) events 0.

Definition isSignal (e : ImageEvent) : bool :=
  match e with
  | Elapse _ => false
  | _ => true
  end.

End CosmicGallery.

(** ** Overlays: [SimpleGallery.openLightbox] and
    [CosmicGallery.showImageDetails] *)
Module Overlays.
Import JS.

(** The overlay elements attached to [document.body], the identifier of
    the next element to be created, the pending
    [setTimeout(() => overlay.remove(), 300)] callbacks (by overlay), and
    the lightboxes whose [escHandler] listens for [keydown]. *)
Record Document : Type := mkDocument {
  body : list nat;
  nextId : nat;
  timers : list nat;
  escHandlers : list nat
}.

Definition emptyDocument : Document := mkDocument [] 0 [] [].

(** [openLightbox(item)]; [hasImg] is whether [item.querySelector('img')]
    finds an image. *)
Definition openLightbox (hasImg : bool) (doc : Document) : Document :=
  if hasImg
  then mkDocument (body doc ++ [nextId doc]) (S (nextId doc)) (timers doc)
                  (escHandlers doc ++ [nextId doc])
  else doc.

(** The [imageData] handed to [showImageDetails]: whether it has the
    properties that the template of the overlay reads, [element] (an
    [<img>], with its [src] and [alt]), [colors] (an array of colour
    objects) and [mood] (an object). *)
Record ImageData : Type := mkImageData {
  element : bool;
  colors : bool;
  mood : bool
}.

(** [showImageDetails(imageData)]. The template reads
    [imageData.element.src], [imageData.element.alt],
    [imageData.colors.map(...)] and [imageData.mood.mood], in this order,
    before [document.body.appendChild(overlay)]: a property that is
    [undefined] raises a [TypeError] and nothing is attached. *)
Definition showImageDetails (imageData : ImageData) (doc : Document) : completion Document :=
  if negb (element imageData) then Throw (TypeError "imageData.element is undefined")
  else if negb (colors imageData) then Throw (TypeError "imageData.colors is undefined")
  else if negb (mood imageData) then Throw (TypeError "imageData.mood is undefined")
  else Return (mkDocument (body doc ++ [nextId doc]) (S (nextId doc)) (timers doc)
                          (escHandlers doc)).

(** [mesh.userData], as [GalaxyEngine.loadImages] builds it: an object with
    [texture], [element], [index], [width] and [height], so without
    [colors] and [mood]. *)
Definition userData : ImageData := mkImageData true false false.

(** The listener of [galaxyImageClick]: [onImageClick(mesh, imageData)]
    with [imageData = mesh.userData] ends in
    [this.showImageDetails(imageData)]; an exception leaves the listener
    and the document stays as it is. *)
Definition onImageClick (imageData : ImageData) (doc : Document) : Document :=
  match showImageDetails imageData doc with
  | Return doc' => doc'
  | Throw _ => doc
  end.

(** The [close] handler of overlay [o]: the class [active] goes, and the
    removal is scheduled. *)
Definition close (o : nat) (doc : Document) : Document :=
  mkDocument (body doc) (nextId doc) (timers doc ++ [o]) (escHandlers doc).

(** [overlay.remove()] *)
Definition removeOverlay (o : nat) (doc : Document) : Document :=
  mkDocument (filter (fun x => x <> o) (body doc)) (nextId doc) (timers doc) (escHandlers doc).

Inductive Interaction : Type :=
| ClickItem (hasImg : bool)     (* click on a gallery item *)
| ClickImage                    (* galaxyImageClick *)
| ClickClose (o : nat)          (* click on the close button or backdrop of [o] *)
| KeyEscape                     (* keydown with key Escape *)
| TimerFires (n : nat).         (* the [n]-th pending removal is due *)

Definition interact (doc : Document) (i : Interaction) : Document :=
  match i with
  | ClickItem hasImg => openLightbox hasImg doc
  | ClickImage => onImageClick userData doc
  | ClickClose o => if decide (o ∈ body doc) then close o doc else doc
  | KeyEscape =>
      let doc' := fold_left (fun d o => close o d) (escHandlers doc) doc in
      mkDocument (body doc') (nextId doc') (timers doc') []
  | TimerFires n =>
      match timers doc !! n with
      | Some o =>
          let doc' := removeOverlay o doc in
          mkDocument (body doc') (nextId doc') (delete n (timers doc')) (escHandlers doc')
      | None => doc
      end
  end.




End Overlays.

(** ** Lazy loading: the observer of src/js/gallery.js and
    [SimpleGallery.fixImages] *)
Module LazyLoad.

(** Elements are identified by numbers. A page: the [<img>] elements that
    [querySelectorAll('.vincent-item img')] finds, and the elements that
    [querySelectorAll('.gallery-item')] finds, each with the image that
    [item.querySelector('img')] finds in it and the [dataset.src] of that
    image: the value of its [data-src] attribute, or [None] ([undefined])
    without the attribute. *)
Record GalleryItem : Type := mkGalleryItem {
  itemElement : nat;
  itemImage : option (nat * option string)
}.

(** [if (img.dataset.src)]: [undefined] and the empty string are falsy. *)
Definition hasDataSrc (dataSrc : option string) : bool :=
  match dataSrc with
  | Some realSrc => negb (String.eqb realSrc "")
  | None => false
  end.

Record Page : Type := mkPage {
  imgElements : gset nat;
  vincentImages : list nat;
  galleryItems : list GalleryItem
}.

(** An [<img>] element has no descendants, so an element in which
    [querySelector('img')] finds something is not an [<img>] itself. *)
Definition wellFormed (page : Page) : Prop :=
  forall item, item ∈ galleryItems page -> is_Some (itemImage item) ->
    itemElement item ∉ imgElements page.

(** The class list of every element, the targets of the observer, and the
    items whose preloading [new Image()] has its [onload] pending. *)
Record Dom : Type := mkDom {
  classes : gmap nat (gset string);
  observed : gset nat;
  preloading : list nat
}.

Definition classList (d : Dom) (e : nat) : gset string :=
  default ∅ (classes d !! e).

(** [e.classList.add(c)] and [e.classList.remove(c)] *)
Definition classAdd (c : string) (e : nat) (d : Dom) : Dom :=
  mkDom (<[e := classList d e ∪ {[c]}]> (classes d)) (observed d) (preloading d).
Definition classRemove (c : string) (e : nat) (d : Dom) : Dom :=
  mkDom (<[e := classList d e ∖ {[c]}]> (classes d)) (observed d) (preloading d).

(** An [IntersectionObserverEntry]. *)
Record Entry : Type := mkEntry { target : nat; isIntersecting : bool }.

(** The callback of [imageObserver]. *)
Definition observerCallback (entries : list Entry) (d : Dom) : Dom :=
  fold_left
    (fun d entry =>
       if isIntersecting entry
       then let d := classAdd "loaded" (target entry) d in
            mkDom (classes d) (observed d ∖ {[target entry]}) (preloading d)
       else d)
    entries d.

(** [images.forEach(img => imageObserver.observe(img))] *)
Definition observeAll (images : list nat) (d : Dom) : Dom :=
  fold_left (fun d img => mkDom (classes d) (observed d ∪ {[img]}) (preloading d)) images d.

(** What [fixImages] and the [onload] of its preloading image do to the
    item once the image is known to be there. *)
Definition markLoaded (item : nat) (d : Dom) : Dom :=
  classAdd "loaded" item (classRemove "loading" item d).

(** [fixImages()] *)
Definition fixImages (items : list GalleryItem) (d : Dom) : Dom :=
  fold_left
    (fun d item =>
       match itemImage item with
       | None => d
       | Some (_, dataSrc) =>
           if hasDataSrc dataSrc
           then mkDom (classes d) (observed d) (preloading d ++ [itemElement item])
           else markLoaded (itemElement item) d
       end)
    items d.

Inductive PageEvent : Type :=
| StartObserver                       (* DOMContentLoaded, src/js/gallery.js *)
| StartSimpleGallery                  (* DOMContentLoaded, SimpleGallery.init *)
| Intersections (entries : list Entry)  (* the observer reports entries *)
| PreloadDone (n : nat).              (* [newImg.onload] of the [n]-th pending preload *)

Definition handle (page : Page) (d : Dom) (e : PageEvent) : Dom :=
  match e with
  | StartObserver => observeAll (vincentImages page) d
  | StartSimpleGallery => fixImages (galleryItems page) d
  | Intersections entries => observerCallback entries d
  | PreloadDone n =>
      match preloading d !! n with
      | Some item =>
          markLoaded item (mkDom (classes d) (observed d) (delete n (preloading d)))
      | None => d
      end
  end.

Definition play (page : Page) (events : list PageEvent) (d : Dom) : Dom :=
  fold_left (handle page) events d.

(** The element was reported as intersecting by one of the events. *)
Definition reportedIntersecting (e : nat) (events : list PageEvent) : Prop :=
  exists entries, Intersections entries ∈ events /\ mkEntry e true ∈ entries.

End LazyLoad.

(** ** Statements of the specification, as it words them *)
Module Spec.
Import JS ColorExtractor.

(** "Exactly the requested number of palette entries, or fewer only if the
    image has fewer distinct visible pixels than requested." *)
Definition exactCount (pixelArray : list Pixel) (colorCount : Z) : Prop :=
  let n := Z.of_nat (length (medianCut pixelArray colorCount)) in
  n = colorCount \/
  (n < colorCount /\ Z.of_nat (length (remove_dups pixelArray)) < colorCount).

(** The buckets of the coarse histogram that the sample occupies. *)
Definition occupiedBuckets (pixelArray : list Pixel) : list (Z * Z * Z) :=
  remove_dups (map bucketKey pixelArray).

(** The variance of channel [d], times the square of the number of
    pixels. *)
Definition varianceOf (d : nat) (ps : list Pixel) : Z :=
  Z.of_nat (length ps) * fold_left (fun t p => t + channel d p * channel d p) ps 0
  - fold_left (fun t p => t + channel d p) ps 0 * fold_left (fun t p => t + channel d p) ps 0.

(** "Split it at the median of its highest-variance channel": the channel
    that the split sorts on has the highest variance. *)
Definition splitsOnHighestVariance (box : Box) : Prop :=
  forall d, (d < 3)%nat ->
    varianceOf d (boxPixels box) <= varianceOf (sortDimension (boxPixels box)) (boxPixels box).

(** The boxes that the loop of [medianCut] starts from: the histogram,
    sorted by descending count, as the only box. *)
Definition startBoxes (pixelArray : list Pixel) : list Box :=
  [stable_sort HistItem (fun a b => count b - count a) (getHistogram pixelArray)].

(** "At each step ... split it at the median of its highest-variance
    channel": in every iteration that the loop runs for [colorCount], the
    box it selects is split on its highest-variance channel. *)
Definition highestVarianceSplits (pixelArray : list Pixel) (colorCount : Z) : Prop :=
  forall n, Z.of_nat n < colorCount - 1 ->
    let boxes := Nat.iter n cutOnce (startBoxes pixelArray) in
    splitsOnHighestVariance (nth (largestIndex boxes) boxes []).


(** Box [box] at index [i] spans the largest volume, and is the first to
    do so. *)
Definition largestVolume (boxes : list Box) (i : nat) (box : Box) : Prop :=
  boxes !! i = Some box /\
  (forall j b, boxes !! j = Some b -> getColorVolume b <= getColorVolume box) /\
  (forall j b, (j < i)%nat -> boxes !! j = Some b -> getColorVolume b < getColorVolume box).

(** Channel [d] has the largest range; nothing is said when green and blue
    tie for the largest range above red. *)
Definition widestChannel (ps : list Pixel) (d : nat) : Prop :=
  (d < 3)%nat /\
  ((forall e, (e < 3)%nat -> rangeOf e ps <= rangeOf d ps) \/
   (rangeOf 1 ps = rangeOf 2 ps /\ rangeOf 0 ps < rangeOf 1 ps)).

(** The pixels of [box], in ascending order of channel [d] (ties in box
    order), are cut at index [floor(n / 2)], and each half is grouped into
    buckets again. *)
Definition medianSplit (box : Box) (d : nat) (box1 box2 : Box) : Prop :=
  exists sorted,
    sorted_result (fun a b => channel d a - channel d b) (boxPixels box) sorted /\
    box1 = getHistogram (take (length sorted / 2) sorted) /\
    box2 = getHistogram (drop (length sorted / 2) sorted).

(** One step of the quantisation loop. *)
Inductive cutStep : list Box -> list Box -> Prop :=
| cut_step boxes i box d box1 box2 :
    largestVolume boxes i box ->
    widestChannel (boxPixels box) d ->
    medianSplit box d box1 box2 ->
    cutStep boxes (take i boxes ++ box1 :: box2 :: drop (S i) boxes).

(** [n] steps of the loop. *)
Inductive cutSteps : nat -> list Box -> list Box -> Prop :=
| cut_done boxes : cutSteps 0 boxes boxes
| cut_more n boxes boxes' boxes'' :
    cutStep boxes boxes' -> cutSteps n boxes' boxes'' -> cutSteps (S n) boxes boxes''.

(** [q] is the mean of channel [d] over [ps], rounded to the nearest
    integer (a half rounds up). *)
Definition roundedMean (d : nat) (ps : list Pixel) (q : Z) : Prop :=
  let n := Z.of_nat (length ps) in
  let total := fold_left (fun t p => t + channel d p) ps 0 in
  2 * n * q - n <= 2 * total < 2 * n * q + n.

(** Reading a colour string back: [#] and three pairs of hexadecimal
    digits. The value of a digit comes from its character code: [0]-[9],
    [a]-[f] or [A]-[F]. *)
Definition hexValue (c : ascii) : option Z :=
  let code := Z.of_N (N_of_ascii c) in
  if (48 <=? code) && (code <=? 57) then Some (code - 48)
  else if (97 <=? code) && (code <=? 102) then Some (code - 87)
  else if (65 <=? code) && (code <=? 70) then Some (code - 55)
  else None.

Definition parsePair (hi lo : ascii) : option Z :=
  match hexValue hi, hexValue lo with
  | Some h, Some l => Some (16 * h + l)
  | _, _ => None
  end.

Definition parseHex (s : string) : option (Z * Z * Z) :=
  match s with
  | String "#" (String r1 (String r2 (String g1 (String g2 (String b1 (String b2 EmptyString)))))) =>
      match parsePair r1 r2, parsePair g1 g2, parsePair b1 b2 with
      | Some r, Some g, Some b => Some (r, g, b)
      | _, _, _ => None
      end
  | _ => None
  end.

(** The two digits that [rgbToHex] writes for [x] read back as [x]. *)
Definition readsBack (x : Z) : bool :=
  match hexPair (Num x) with
  | String hi (String lo EmptyString) =>
      match parsePair hi lo with
      | Some y => y =? x
      | None => false
      end
  | _ => false
  end.


End Spec.

(** ** Further vocabulary for the colour extractor *)
Module Gamut.
Import JS ColorExtractor.

(** A pixel as a canvas delivers it: every channel is a byte. *)
Definition inGamut (p : Pixel) : Prop :=
  0 <= pxR p <= 255 /\ 0 <= pxG p <= 255 /\ 0 <= pxB p <= 255.

(** A palette entry of [medianCut]: three bytes, or the three [NaN] that an
    empty group averages to. *)
Definition byteOrNaN (c : num * num * num) : Prop :=
  c = (NaN, NaN, NaN) \/
  exists r g b, c = (Num r, Num g, Num b) /\
                0 <= r <= 255 /\ 0 <= g <= 255 /\ 0 <= b <= 255.


(** The string hash with multiplier 31, before any reduction to 32 bits. *)
Definition polynomial31 (s : string) : Z :=
  fold_left (fun a c => 31 * a + charCode c) (list_ascii_of_string s) 0.

(** What [getHistogram] keeps true of the object [h] that it fills, for the
    pixels [seen] so far: keys are distinct, every pixel seen has the entry
    of its bucket, and the entry of a key holds the pixels of that bucket in
    the order they came, their number, and the first of them as colour. *)
Definition histogramOf (seen : list Pixel) (h : list (Z * Z * Z * HistItem)) : Prop :=
  NoDup (map fst h) /\
  (forall q, q ∈ seen -> bucketKey q ∈ map fst h) /\
  (forall k it, (k, it) ∈ h ->
     pixels it = filter (fun q => bucketKey q = k) seen /\
     count it = Z.of_nat (length (pixels it)) /\
     head (pixels it) = Some (color it)).

(** A colour triple of the theme table is made of bytes, and the string
    that [rgbToHex] writes for it reads back as the triple. *)
Definition wellWritten (c : Z * Z * Z) : bool :=
  let '(r, g, b) := c in
  (0 <=? r) && (r <=? 255) && (0 <=? g) && (g <=? 255) && (0 <=? b) && (b <=? 255) &&
  bool_decide (Spec.parseHex (rgbToHex (Num r) (Num g) (Num b)) = Some (r, g, b)).

(** A colour object holds bytes, and its [hex] reads back as its [rgb]. *)
Definition hexAgrees {Extra : Type} (o : @ColorObject Extra) : Prop :=
  exists r g b,
    rgb o = (Num r, Num g, Num b) /\
    0 <= r <= 255 /\ 0 <= g <= 255 /\ 0 <= b <= 255 /\
    Spec.parseHex (hex o) = Some (r, g, b).

End Gamut.

(** ** js/gallery.js: navigation, morphing and autoplay of the cosmic gallery *)
Module Controls.
Import JS.

(** [a + b] and [a % b] for a number that may be [NaN] and an integer: the
    remainder takes the sign of the dividend, and is [NaN] for a zero
    divisor. *)
Definition plus (a : num) (b : Z) : num :=
  match a with
  | NaN => NaN
  | Num x => Num (x + b)
  end.

Definition remainder (a : num) (b : Z) : num :=
  match a with
  | NaN => NaN
  | Num x => if b =? 0 then NaN else Num (Z.rem x b)
  end.

(** [array[i]] for a number [i]: [undefined] for [NaN], a negative index or
    an index past the end. *)
Definition at_index {A : Type} (array : list A) (i : num) : option A :=
  match i with
  | NaN => None
  | Num x => if x <? 0 then None else array !! Z.to_nat x
  end.

Section Gallery.
(** The records of [this.images] and the meshes of
    [this.modules.galaxy.images]. *)
Context {Record_ Mesh : Type}.

(** The part of the controller that navigation reads and writes. *)
Record Gallery : Type := mkGallery {
  currentImageIndex : num;
  images : list Record_;
  meshes : list Mesh
}.

(** [navigateImages(direction)]: the new state, and what the call does with
    it. With a mesh at the new index the camera moves to the mesh and the
    trail takes the first colour of the record at that index; reading
    [this.images[index].colors] raises a [TypeError] if there is no such
    record. Without a mesh nothing moves. *)
Definition navigateImages (direction : Z) (g : Gallery)
    : Gallery * completion (option (Mesh * Record_)) :=
  let n := Z.of_nat (length (images g)) in
  let index := remainder (plus (plus (currentImageIndex g) direction) n) n in
  (mkGallery index (images g) (meshes g),
   match at_index (meshes g) index with
   | Some targetMesh =>
       match at_index (images g) index with
       | Some record => Return (Some (targetMesh, record))
       | None => Throw (TypeError "this.images[this.currentImageIndex] is undefined")
       end
   | None => Return None
   end).

(** [handleGesture(start, end)] for the horizontal distance and the duration
    of a touch: a swipe to the right goes back, a swipe to the left goes
    on. *)
Definition handleGesture (deltaX deltaTime : Z) (g : Gallery) : Gallery :=
  if (Z.abs deltaX >? 50) && (deltaTime <? 300)
  then if deltaX >? 0 then (navigateImages (-1) g).1 else (navigateImages 1 g).1
  else g.

End Gallery.

(** [images.findIndex(img => img === imageData)] on records identified by
    numbers: the first index, or [-1]. *)
Fixpoint findIndexFrom (i : Z) (imageData : nat) (images : list nat) : Z :=
  match images with
  | [] => -1
  | img :: rest => if decide (img = imageData) then i else findIndexFrom (i + 1) imageData rest
  end.

Definition findIndex (imageData : nat) (images : list nat) : Z :=
  findIndexFrom 0 imageData images.

(** [morphToNext(imageData)]: the two meshes handed to [morphImages], if
    both exist. *)
Definition morphToNext {Mesh : Type} (imageData : nat) (images : list nat)
    (meshes : list Mesh) : option (Mesh * Mesh) :=
  let currentIndex := findIndex imageData images in
  let nextIndex := remainder (Num (currentIndex + 1)) (Z.of_nat (length images)) in
  match at_index meshes (Num currentIndex), at_index meshes nextIndex with
  | Some currentMesh, Some nextMesh => Some (currentMesh, nextMesh)
  | _, _ => None
  end.







End Controls.

(** ** src/js/gallery.js: [throttle], [debounce] and the keyboard navigation *)
Module Timing.
Import JS.

Section Throttle.
Context {A : Type}.
(** The delay handed to [throttle]; a negative delay counts as zero. *)
Variable limit : Z.








End Throttle.

Section Debounce.
Context {A : Type}.
(** The delay handed to [debounce]; a negative delay counts as zero. *)
Variable wait : Z.

(** A pending timer of a debounced function: its identifier, the time it is
    due, and the arguments that its [later] closure holds. *)
Record Timer : Type := mkTimer { timerId : nat; timerDue : Z; timerArgs : A }.

(** A debounced function: the variable [timeout], the pending timers, the
    next identifier, the clock, and the calls of [func] so far. *)
Record Debounced : Type := mkDebounced {
  timeout : option nat;
  timers : list Timer;
  nextId : nat;
  time : Z;
  called : list (Z * A)
}.

Definition newDebounced : Debounced := mkDebounced None [] 1 0 [].

(** [clearTimeout(id)] *)
Definition clearTimer (id : option nat) (ts : list Timer) : list Timer :=
  match id with
  | Some i => filter (fun t => timerId t <> i) ts
  | None => ts
  end.

(** [executedFunction(...args)] *)
Definition invoke (args : A) (d : Debounced) : Debounced :=
  mkDebounced (Some (nextId d))
              (clearTimer (timeout d) (timers d)
               ++ [mkTimer (nextId d) (time d + Z.max 0 wait) args])
              (S (nextId d)) (time d) (called d).

(** The closure [later] of timer [t], when the timer fires:
    [clearTimeout(timeout); func(...args)]. *)
Definition later (t : Timer) (d : Debounced) : Debounced :=
  mkDebounced (timeout d)
              (clearTimer (timeout d) (filter (fun u => timerId u <> timerId t) (timers d)))
              (nextId d) (time d) (called d ++ [(time d, timerArgs t)]).

(** What can happen to a debounced function: it is called, time passes, or
    the event loop fires the timer [id], which it may do at any time from
    the moment the timer is due. *)
Inductive Event : Type :=
| Call (args : A)
| Elapse (ms : N)
| Fire (id : nat).

Definition handle (d : Debounced) (e : Event) : Debounced :=
  match e with
  | Call args => invoke args d
  | Elapse ms =>
      mkDebounced (timeout d) (timers d) (nextId d) (time d + Z.of_N ms) (called d)
  | Fire id =>
      match find (fun t => Nat.eqb (timerId t) id) (timers d) with
      | Some t => if bool_decide (timerDue t <= time d) then later t d else d
      | None => d
      end
  end.

(** The time and the arguments of the last call of the debounced function
    in a sequence of events that starts at time [now]. *)
Fixpoint lastCall (now : Z) (events : list Event) (seen : option (Z * A)) : option (Z * A) :=
  match events with
  | [] => seen
  | Call args :: rest => lastCall now rest (Some (now, args))
  | Elapse ms :: rest => lastCall (now + Z.of_N ms) rest seen
  | Fire _ :: rest => lastCall now rest seen
  end.

(** The arguments of the calls among the events. *)
Definition callArgs (events : list Event) : list A :=
  omap (fun e => match e with Call args => Some args | _ => None end) events.

(** The time that passes during a sequence of events. *)
Definition elapsedTime (events : list Event) : Z :=
  fold_right (fun e acc => match e with Elapse ms => Z.of_N ms + acc | _ => acc end) 0 events.

(** The state of a debounced function after a sequence of events. *)
Definition debounced (events : list Event) : Debounced :=
  fold_left handle events newDebounced.

(** At most one timer is pending; it is the one in [timeout], it belongs to
    the last call, and every earlier call either ran [func] or was
    dropped. *)
Definition settled (events : list Event) (d : Debounced) : Prop :=
  time d = elapsedTime events /\
  match timers d with
  | [] => map snd (called d) `sublist_of` callArgs events
  | [t] =>
      timeout d = Some (timerId t) /\
      exists t0 pre,
        lastCall 0 events None = Some (t0, timerArgs t) /\
        timerDue t = t0 + Z.max 0 wait /\
        callArgs events = pre ++ [timerArgs t] /\
        map snd (called d) `sublist_of` pre
  | _ => False
  end.
End Debounce.


End Timing.

(** ** Runs of the overlay model *)
Module OverlayRuns.
Import Overlays.

(** The document after a sequence of interactions on the empty page. *)
Definition reached (acts : list Interaction) : Document :=
  fold_left interact acts emptyDocument.

(** Every pending removal fires, the oldest first. *)
Definition drain (doc : Document) : Document :=
  fold_left interact (replicate (length (timers doc)) (TimerFires 0)) doc.

(** The number of lightboxes that the interactions open. *)
Definition opensLightbox (i : Interaction) : bool :=
  match i with
  | ClickItem true => true
  | _ => false
  end.

Definition lightboxesOpened (acts : list Interaction) : nat :=
  length (List.filter opensLightbox acts).

(** Every attached overlay is a lightbox that still listens for Escape, or
    is about to be removed. *)
Definition accounted (doc : Document) : Prop :=
  forall o, o ∈ body doc -> o ∈ escHandlers doc \/ o ∈ timers doc.

End OverlayRuns.

Import JS ColorExtractor.

(** * Properties *)

(** ** The definitions at work *)

Example getHistogram_groups :
  getHistogram [mkPixel 0 0 0; mkPixel 17 0 0; mkPixel 1 1 1]
  = [mkItem (mkPixel 0 0 0) 2 [mkPixel 0 0 0; mkPixel 1 1 1];
     mkItem (mkPixel 17 0 0) 1 [mkPixel 17 0 0]].
Proof. reflexivity. Qed.

Example medianCut_two_colours :
  medianCut [mkPixel 100 0 0; mkPixel 0 0 0; mkPixel 0 90 0; mkPixel 0 90 0; mkPixel 0 90 0] 2
  = [(Num 0, Num 90, Num 0); (Num 33, Num 30, Num 0)].
Proof. vm_compute. reflexivity. Qed.

(** When every box has volume zero the first one is split again and again;
    splitting a box of one pixel leaves an empty box, whose average is
    [NaN]. *)
Example medianCut_empty_group :
  medianCut [mkPixel 0 0 0; mkPixel 0 16 0; mkPixel 0 32 0; mkPixel 0 48 0; mkPixel 0 64 0] 4
  = [(NaN, NaN, NaN); (Num 0, Num 0, Num 0); (Num 0, Num 16, Num 0); (Num 0, Num 48, Num 0)].
Proof. vm_compute. reflexivity. Qed.

(** With green and blue tied above red, [splitBox] sorts on red. *)
Example sortDimension_tie :
  sortDimension [mkPixel 0 0 0; mkPixel 5 40 40] = 0%nat.
Proof. reflexivity. Qed.

Example rgbToHex_indigo : rgbToHex (Num 99) (Num 102) (Num 241) = "#6366f1".
Proof. vm_compute. reflexivity. Qed.

Example rgbToHex_NaN : rgbToHex NaN NaN NaN = "#NaNNaNNaN".
Proof. vm_compute. reflexivity. Qed.

Example toInt32_wraps : toInt32 (2 ^ 31) = - 2 ^ 31 /\ toInt32 (- 2 ^ 31 - 1) = 2 ^ 31 - 1.
Proof. split; reflexivity. Qed.

Example hashOf_collision : hashOf "Aa" = 2112 /\ hashOf "BB" = 2112.
Proof. split; vm_compute; reflexivity. Qed.

(** An image that cannot be read gets the palette of its address, and the
    palette is cached under the address. *)
Example extractColors_cross_origin :
  extractColors (fun _ _ _ => tt) tt (imgElement "Aa" Raises) (mkOptions None None None)
    newExtractor
  = (getDefaultPaletteVariation (fun _ _ _ => tt) "Aa",
     mkExtractor
       {[ Some "Aa" := map (fun c : Z * Z * Z =>
                              let '(r, g, b) := c in
                              colorObject (fun _ _ _ => tt) (Num r, Num g, Num b))
                           [(251, 146, 60); (239, 68, 68); (245, 158, 11);
                            (254, 202, 202); (254, 215, 170)] ]}
       []).
Proof. reflexivity. Qed.

Example waitForImage_timeout :
  CosmicGallery.promise
    (CosmicGallery.after [CosmicGallery.Elapse 4000; CosmicGallery.Elapse 6000]
       (CosmicGallery.waitForImage false 10000))
  = CosmicGallery.Fulfilled /\
  CosmicGallery.promise
    (CosmicGallery.after [CosmicGallery.Elapse 4000]
       (CosmicGallery.waitForImage false 10000))
  = CosmicGallery.Pending.
Proof. split; reflexivity. Qed.

(** A closed lightbox stays attached until its timer fires. *)
Example closing_keeps_overlay :
  Overlays.body
    (fold_left Overlays.interact [Overlays.ClickItem true; Overlays.ClickClose 0]
       Overlays.emptyDocument) = [0%nat] /\
  Overlays.body
    (fold_left Overlays.interact
       [Overlays.ClickItem true; Overlays.ClickClose 0; Overlays.TimerFires 0]
       Overlays.emptyDocument) = [].
Proof. split; reflexivity. Qed.

(** ** The quantisation loop adds one box per iteration *)
Section LoopLength.
Variable sort : sort_fn.

Lemma largestFrom_bound rest : forall i li lv,
  (li < i)%nat -> (largestFrom rest i li lv < i + length rest)%nat.
Proof.
  induction rest as [|box rest IH]; intros i li lv Hli; simpl.
  - lia.
  - destruct (getColorVolume box >? lv).
    + specialize (IH (S i) i (getColorVolume box)). lia.
    + specialize (IH (S i) li lv). lia.
Qed.

Lemma largestIndex_bound boxes :
  boxes <> [] -> (largestIndex boxes < length boxes)%nat.
Proof.
  destruct boxes as [|box0 rest]; [congruence|]. intros _. simpl.
  pose proof (largestFrom_bound rest 1 0 (getColorVolume box0)). lia.
Qed.

Lemma splice2_length boxes i box1 box2 :
  (i < length boxes)%nat -> length (splice2 boxes i box1 box2) = S (length boxes).
Proof.
  intros Hi. unfold splice2.
  rewrite length_app; simpl. rewrite length_take, length_drop. lia.
Qed.

Lemma cutOnce_length boxes :
  boxes <> [] -> length (cutOnce_on sort boxes) = S (length boxes).
Proof.
  intros Hne. unfold cutOnce_on.
  destruct (splitBox_on sort (nth (largestIndex boxes) boxes [])) as [box1 box2].
  apply splice2_length, largestIndex_bound, Hne.
Qed.

Lemma cutOnce_nonempty boxes : cutOnce_on sort boxes <> [].
Proof.
  unfold cutOnce_on.
  destruct (splitBox_on sort (nth (largestIndex boxes) boxes [])) as [box1 box2].
  unfold splice2. destruct (take (largestIndex boxes) boxes); discriminate.
Qed.

(** The loop leaves with exactly [colorCount] boxes when it starts with
    fewer, and does not run otherwise. *)
Lemma cutLoop_length boxes colorCount :
  boxes <> [] ->
  Z.of_nat (length (cutLoop_on sort boxes colorCount))
  = Z.max (Z.of_nat (length boxes)) colorCount.
Proof.
  funelim (cutLoop_on sort boxes colorCount); intros Hne.
  - rewrite H by apply cutOnce_nonempty.
    rewrite cutOnce_length by assumption. lia.
  - lia.
Qed.

Lemma medianCut_length pixelArray colorCount :
  Z.of_nat (length (medianCut_on sort pixelArray colorCount))
  = if Z.of_nat (length (getHistogram pixelArray)) <=? colorCount
    then Z.of_nat (length (getHistogram pixelArray))
    else Z.max 1 colorCount.
Proof.
  unfold medianCut_on.
  destruct (Z.of_nat (length (getHistogram pixelArray)) <=? colorCount).
  - now rewrite length_map.
  - rewrite length_map, cutLoop_length by discriminate. reflexivity.
Qed.
End LoopLength.

(** ** The histogram has one entry per occupied bucket *)
Section Histogram.

Lemma addPixel_keys key p h :
  map fst (addPixel key p h)
  = if decide (key ∈ map fst h) then map fst h else map fst h ++ [key].
Proof.
  induction h as [|[k it] h IH]; cbn [addPixel map fst].
  - destruct (decide (key ∈ [])) as [Hin|_]; [|reflexivity].
    now apply elem_of_nil in Hin.
  - destruct (decide (k = key)) as [->|Hne]; cbn [map fst].
    + destruct (decide (key ∈ key :: map fst h)) as [_|Hn]; [reflexivity|].
      exfalso. apply Hn. left.
    + rewrite IH. destruct (decide (key ∈ map fst h)) as [Hin|Hin];
        destruct (decide (key ∈ k :: map fst h)) as [Hin'|Hin']; try reflexivity.
      * exfalso. apply Hin'. now right.
      * apply elem_of_cons in Hin' as [->|Hin']; tauto.
Qed.

Lemma keyed_keys pixelArray : forall h,
  NoDup (map fst h) ->
  NoDup (map fst (keyed pixelArray h)) /\
  (forall k, k ∈ map fst (keyed pixelArray h) <-> k ∈ map fst h \/ k ∈ map bucketKey pixelArray).
Proof.
  induction pixelArray as [|p ps IH]; intros h Hnd; simpl.
  - split; [assumption|]. intros k. rewrite elem_of_nil. tauto.
  - destruct (IH (addPixel (bucketKey p) p h)) as [Hnd' Hin'].
    + rewrite addPixel_keys. destruct (decide (bucketKey p ∈ map fst h)); [assumption|].
      apply NoDup_app. split; [assumption|]. split; [|apply NoDup_singleton].
      intros x Hx Hx'. apply list_elem_of_singleton in Hx'. now subst.
    + split; [assumption|]. intros k. rewrite Hin', addPixel_keys, elem_of_cons.
      destruct (decide (bucketKey p ∈ map fst h)) as [Hp|Hp].
      * split; [tauto|]. intros [?|[->|?]]; tauto.
      * rewrite elem_of_app, list_elem_of_singleton. tauto.
Qed.

(** [getHistogram] returns as many entries as the sample occupies
    buckets. *)
Lemma getHistogram_length pixelArray :
  length (getHistogram pixelArray) = length (Spec.occupiedBuckets pixelArray).
Proof.
  unfold getHistogram, Spec.occupiedBuckets.
  destruct (keyed_keys pixelArray []) as [Hnd Hin]; [apply NoDup_nil_2|].
  rewrite length_map, <- (length_map fst (keyed pixelArray [])).
  apply Permutation_length, NoDup_Permutation.
  - assumption.
  - apply NoDup_remove_dups.
  - intros k. rewrite Hin, elem_of_remove_dups, elem_of_nil. tauto.
Qed.
End Histogram.

(** ** C1: the size of the palette *)

(** C1, as the specification words it, fails: six distinct visible pixels
    that share one bucket give a palette of one entry when five are asked
    for. *)
Lemma exactCount_counterexample :
  ~ Spec.exactCount
      [mkPixel 0 0 0; mkPixel 1 1 1; mkPixel 2 2 2; mkPixel 3 3 3; mkPixel 4 4 4; mkPixel 5 5 5]
      5.
Proof.
  unfold Spec.exactCount. vm_compute. intros [H|[_ H]]; discriminate H.
Qed.

(** C1 (amended): for a requested size [colorCount >= 1], [medianCut] returns
    exactly [colorCount] entries when the sample occupies more than
    [colorCount] buckets of the coarse histogram, and otherwise one entry per
    occupied bucket; so it returns fewer entries than requested exactly when
    the sample occupies fewer buckets than requested. *)
Theorem medianCut_count (pixelArray : list Pixel) (colorCount : Z) :
  1 <= colorCount ->
  let buckets := Z.of_nat (length (Spec.occupiedBuckets pixelArray)) in
  let entries := Z.of_nat (length (medianCut pixelArray colorCount)) in
  (colorCount < buckets -> entries = colorCount) /\
  (buckets <= colorCount -> entries = buckets) /\
  (entries < colorCount <-> buckets < colorCount).
Proof.
  intros Hc buckets entries. subst buckets entries. unfold medianCut.
  rewrite medianCut_length, getHistogram_length.
  destruct (Z.leb_spec (Z.of_nat (length (Spec.occupiedBuckets pixelArray))) colorCount); lia.
Qed.

(** ** The model of [Array.prototype.sort] *)
Section Sorting.
Context {A : Type} (key : A -> Z) (cmp : A -> A -> Z).
Hypothesis cmp_key : by_key key cmp.

Local Abbreviation before := (fun a b => cmp a b <= 0).
Local Abbreviation tied x := (fun y => cmp x y = 0).

Lemma insert_sorted_perm x l : insert_sorted cmp x l ≡ₚ x :: l.
Proof.
  induction l as [|y l IH]; simpl; [reflexivity|].
  destruct (cmp x y <=? 0); [reflexivity|].
  rewrite IH. apply Permutation_swap.
Qed.

Lemma insert_sorted_sorted x l :
  StronglySorted before l -> StronglySorted before (insert_sorted cmp x l).
Proof.
  induction 1 as [|y l Hs IH Hall]; simpl.
  - constructor; [constructor | constructor].
  - destruct (Z.leb_spec (cmp x y) 0) as [Hxy|Hxy].
    + constructor; [constructor; assumption|].
      constructor; [assumption|].
      eapply Forall_impl; [exact Hall|]. intros z Hz. simpl in *.
      rewrite (cmp_key x z). rewrite (cmp_key x y) in Hxy. rewrite (cmp_key y z) in Hz. lia.
    + constructor; [assumption|].
      rewrite insert_sorted_perm. constructor; [|assumption].
      rewrite (cmp_key y x). rewrite (cmp_key x y) in Hxy. lia.
Qed.

Lemma insert_sorted_stable z x l :
  filter (tied z) (insert_sorted cmp x l) = filter (tied z) (x :: l).
Proof.
  induction l as [|y l IH]; simpl; [reflexivity|].
  destruct (Z.leb_spec (cmp x y) 0) as [Hxy|Hxy]; [reflexivity|].
  rewrite (filter_cons _ y), IH, !filter_cons.
  destruct (decide (cmp z y = 0)) as [Hy|Hy];
    destruct (decide (cmp z x = 0)) as [Hx|Hx]; try reflexivity.
  rewrite (cmp_key z y) in Hy. rewrite (cmp_key z x) in Hx.
  rewrite (cmp_key x y) in Hxy. lia.
Qed.

(** The insertion sort meets the requirement on the engine's sort. *)
Lemma stable_sort_result l : sorted_result cmp l (stable_sort A cmp l).
Proof.
  unfold stable_sort. induction l as [|x l [Hs Hp Hf]]; simpl.
  - split; [constructor | reflexivity | reflexivity].
  - split.
    + now apply insert_sorted_sorted.
    + rewrite insert_sorted_perm. now constructor.
    + intros z. rewrite insert_sorted_stable, !filter_cons, Hf. reflexivity.
Qed.

Lemma insert_behind_perm x l : insert_behind cmp x l ≡ₚ x :: l.
Proof.
  induction l as [|y l IH]; simpl; [reflexivity|].
  destruct (cmp y x <=? 0); [|reflexivity].
  rewrite IH. apply Permutation_swap.
Qed.

Lemma insert_behind_sorted x l :
  StronglySorted before l -> StronglySorted before (insert_behind cmp x l).
Proof.
  induction 1 as [|y l Hs IH Hall]; simpl.
  - constructor; [constructor | constructor].
  - destruct (Z.leb_spec (cmp y x) 0) as [Hyx|Hyx].
    + constructor; [assumption|].
      rewrite insert_behind_perm. constructor; assumption.
    + constructor; [constructor; assumption|].
      constructor; [rewrite (cmp_key x y); rewrite (cmp_key y x) in Hyx; lia|].
      eapply Forall_impl; [exact Hall|]. intros z Hz. simpl in *.
      rewrite (cmp_key x z). rewrite (cmp_key y x) in Hyx. rewrite (cmp_key y z) in Hz. lia.
Qed.

Lemma insert_behind_stable z x l :
  StronglySorted before l ->
  filter (tied z) (insert_behind cmp x l) = filter (tied z) (l ++ [x]).
Proof.
  induction 1 as [|y l Hs IH Hall]; simpl; [reflexivity|].
  destruct (Z.leb_spec (cmp y x) 0) as [Hyx|Hyx].
  - rewrite !filter_cons, IH. reflexivity.
  - rewrite (filter_cons _ x). destruct (decide (cmp z x = 0)) as [Hzx|Hzx].
    + assert (Hnone : Forall (fun w => ~ cmp z w = 0) (y :: l)).
      { constructor.
        - rewrite (cmp_key z y). rewrite (cmp_key z x) in Hzx.
          rewrite (cmp_key y x) in Hyx. lia.
        - eapply Forall_impl; [exact Hall|]. intros w Hw. simpl in Hw.
          rewrite (cmp_key z w). rewrite (cmp_key z x) in Hzx.
          rewrite (cmp_key y x) in Hyx. rewrite (cmp_key y w) in Hw. lia. }
      change (y :: l ++ [x]) with ((y :: l) ++ [x]).
      rewrite filter_app, (filter_cons _ x), decide_True by assumption.
      assert (Hnil : filter (tied z) (y :: l) = []).
      { clear -Hnone. induction Hnone as [|w ws Hw _ IHw]; [reflexivity|].
        rewrite filter_cons, decide_False by assumption. exact IHw. }
      now rewrite Hnil.
    + change (y :: l ++ [x]) with ((y :: l) ++ [x]).
      rewrite filter_app, (filter_cons _ x), decide_False by assumption.
      rewrite filter_nil, app_nil_r. reflexivity.
Qed.

Lemma forward_sort_from l : forall acc,
  StronglySorted before acc ->
  let r := fold_left (fun acc x => insert_behind cmp x acc) l acc in
  StronglySorted before r /\ acc ++ l ≡ₚ r /\
  forall z, filter (tied z) r = filter (tied z) (acc ++ l).
Proof.
  induction l as [|x l IH]; intros acc Hacc; simpl.
  - rewrite app_nil_r. split; [assumption|]. split; reflexivity.
  - destruct (IH (insert_behind cmp x acc)) as (Hs & Hp & Hf);
      [now apply insert_behind_sorted|].
    split; [exact Hs|]. split.
    + rewrite <- Hp, insert_behind_perm. symmetry. apply Permutation_middle.
    + intros z. rewrite Hf, !filter_app, insert_behind_stable by assumption.
      rewrite filter_app, <- app_assoc. f_equal.
      rewrite !(filter_cons _ x), filter_nil.
      destruct (decide (cmp z x = 0)); reflexivity.
Qed.

(** The forward insertion sort meets the requirement as well. *)
Lemma forward_sort_result l : sorted_result cmp l (forward_sort A cmp l).
Proof.
  destruct (forward_sort_from l []) as (Hs & Hp & Hf); [constructor|].
  split; assumption.
Qed.

(** Two results that meet the requirement are the same list. *)
Lemma sorted_unique : forall l1 l2,
  StronglySorted before l1 -> StronglySorted before l2 ->
  (forall x, filter (tied x) l1 = filter (tied x) l2) ->
  l1 = l2.
Proof.
  assert (Hrefl : forall a, cmp a a = 0) by (intros a; rewrite cmp_key; lia).
  assert (Hhead : forall a t l, StronglySorted before l ->
            filter (tied a) (a :: t) = filter (tied a) l ->
            exists b t', l = b :: t' /\ key b <= key a).
  { intros a t l Hs Hf. rewrite filter_cons_True in Hf by apply Hrefl.
    assert (Hin : a ∈ l).
    { eapply (list_elem_of_filter (tied a)). rewrite <- Hf. left. }
    destruct l as [|b t']; [now apply elem_of_nil in Hin|].
    exists b, t'. split; [reflexivity|].
    apply elem_of_cons in Hin as [->|Hin]; [lia|].
    apply StronglySorted_inv in Hs as [_ Hall].
    rewrite Forall_forall in Hall. specialize (Hall a Hin). simpl in Hall.
    rewrite cmp_key in Hall. lia. }
  induction l1 as [|a t1 IH]; intros l2 Hs1 Hs2 Hf.
  - destruct l2 as [|b t2]; [reflexivity|].
    specialize (Hf b). rewrite filter_cons_True in Hf by apply Hrefl. discriminate Hf.
  - destruct (Hhead a t1 l2 Hs2 (Hf a)) as (b & t2 & -> & Hba).
    destruct (Hhead b t2 (a :: t1) Hs1 (eq_sym (Hf b))) as (a' & t1' & Heq & Hab).
    injection Heq as <- <-.
    assert (Hkey : cmp a b = 0) by (rewrite cmp_key; lia).
    pose proof (Hf a) as Hfa.
    rewrite filter_cons_True in Hfa by apply Hrefl.
    rewrite filter_cons_True in Hfa by exact Hkey.
    injection Hfa as <- _.
    f_equal. apply IH.
    + now apply StronglySorted_inv in Hs1.
    + now apply StronglySorted_inv in Hs2.
    + intros x. specialize (Hf x). rewrite !filter_cons in Hf.
      destruct (decide (cmp x a = 0)); [now injection Hf | assumption].
Qed.

Lemma sorted_result_unique l l1 l2 :
  sorted_result cmp l l1 -> sorted_result cmp l l2 -> l1 = l2.
Proof.
  intros [Hs1 _ Hf1] [Hs2 _ Hf2].
  apply sorted_unique; try assumption.
  intros x. now rewrite Hf1, Hf2.
Qed.
End Sorting.

(** Conforming engines sort alike. *)
Lemma conforming_agree (sort1 sort2 : sort_fn) :
  conforming sort1 -> conforming sort2 ->
  forall (A : Type) (key : A -> Z) (cmp : A -> A -> Z) (l : list A),
    by_key key cmp -> sort1 A cmp l = sort2 A cmp l.
Proof.
  intros H1 H2 A key cmp l Hk.
  exact (sorted_result_unique key cmp Hk l _ _ (H1 A key cmp l Hk) (H2 A key cmp l Hk)).
Qed.

Lemma stable_sort_conforming : conforming stable_sort.
Proof. intros A key cmp l Hk. now apply (stable_sort_result key). Qed.

Lemma forward_sort_conforming : conforming forward_sort.
Proof. intros A key cmp l Hk. now apply (forward_sort_result key). Qed.

(** ** Unfolding the loop *)
Lemma cutLoop_on_step (sort : sort_fn) boxes colorCount :
  Z.of_nat (length boxes) < colorCount ->
  cutLoop_on sort boxes colorCount = cutLoop_on sort (cutOnce_on sort boxes) colorCount.
Proof.
  intros Hlt. rewrite (cutLoop_on_equation_1 sort boxes colorCount).
  destruct (Z_lt_dec (Z.of_nat (length boxes)) colorCount); [reflexivity | contradiction].
Qed.

Lemma cutLoop_on_exit (sort : sort_fn) boxes colorCount :
  ~ Z.of_nat (length boxes) < colorCount ->
  cutLoop_on sort boxes colorCount = boxes.
Proof.
  intros Hge. rewrite (cutLoop_on_equation_1 sort boxes colorCount).
  destruct (Z_lt_dec (Z.of_nat (length boxes)) colorCount); [contradiction | reflexivity].
Qed.

(** ** C4: the palette does not depend on the engine *)
Section Determinism.
Variables sort1 sort2 : sort_fn.
Hypothesis conforming1 : conforming sort1.
Hypothesis conforming2 : conforming sort2.

Lemma splitBox_agree box : splitBox_on sort1 box = splitBox_on sort2 box.
Proof.
  unfold splitBox_on. destruct box as [|item box]; [reflexivity|].
  cbv zeta.
  rewrite (conforming_agree sort1 sort2 conforming1 conforming2 Pixel
             (channel (sortDimension (boxPixels (item :: box)))));
    [reflexivity | intros a b; reflexivity].
Qed.

Lemma cutOnce_agree boxes : cutOnce_on sort1 boxes = cutOnce_on sort2 boxes.
Proof. unfold cutOnce_on. now rewrite splitBox_agree. Qed.

Lemma cutLoop_agree boxes colorCount :
  cutLoop_on sort1 boxes colorCount = cutLoop_on sort2 boxes colorCount.
Proof.
  funelim (cutLoop_on sort1 boxes colorCount).
  - rewrite H, cutOnce_agree. symmetry. now apply cutLoop_on_step.
  - symmetry. now apply cutLoop_on_exit.
Qed.

Lemma medianCut_agree pixelArray colorCount :
  medianCut_on sort1 pixelArray colorCount = medianCut_on sort2 pixelArray colorCount.
Proof.
  unfold medianCut_on.
  destruct (Z.of_nat (length (getHistogram pixelArray)) <=? colorCount); [reflexivity|].
  rewrite cutLoop_agree.
  rewrite (conforming_agree sort1 sort2 conforming1 conforming2 HistItem
             (fun h => - count h)); [reflexivity | intros a b; lia].
Qed.
End Determinism.

(** C4: quantisation is deterministic. Two runs of [medianCut] on the same
    sample and palette size return the same palette, colour by colour in the
    same order, on any two engines whose [Array.prototype.sort] is stable as
    ECMAScript requires (in particular on the same engine twice). *)
Theorem medianCut_deterministic (sort1 sort2 : sort_fn) :
  conforming sort1 -> conforming sort2 ->
  forall (pixelArray : list Pixel) (colorCount : Z),
    medianCut_on sort1 pixelArray colorCount = medianCut_on sort2 pixelArray colorCount.
Proof.
  intros H1 H2 pixelArray colorCount. now apply medianCut_agree.
Qed.

(** ** C3: what one iteration of the loop does *)
Section Cut.

Lemma largestFrom_spec rest : forall pre li best,
  pre !! li = Some best ->
  (forall j b, pre !! j = Some b -> getColorVolume b <= getColorVolume best) ->
  (forall j b, (j < li)%nat -> pre !! j = Some b -> getColorVolume b < getColorVolume best) ->
  exists box,
    Spec.largestVolume (pre ++ rest)
      (largestFrom rest (length pre) li (getColorVolume best)) box.
Proof.
  induction rest as [|box rest IH]; intros pre li best Hli Hmax Hfirst; simpl.
  - exists best. rewrite app_nil_r. repeat split; assumption.
  - assert (Hlen : (li < length pre)%nat) by (eapply lookup_lt_Some; eassumption).
    replace (pre ++ box :: rest) with ((pre ++ [box]) ++ rest)
      by (rewrite <- app_assoc; reflexivity).
    replace (S (length pre)) with (length (pre ++ [box]))
      by (rewrite length_app; simpl; lia).
    destruct (Z.gtb_spec (getColorVolume box) (getColorVolume best)) as [Hgt|Hle].
    + apply IH.
      * rewrite lookup_app_r, Nat.sub_diag by lia. reflexivity.
      * intros j b Hj. apply lookup_app_Some in Hj as [Hj|[_ Hj]].
        -- specialize (Hmax j b Hj). lia.
        -- apply list_lookup_singleton_Some in Hj as [_ <-]. lia.
      * intros j b Hlt Hj. rewrite lookup_app_l in Hj by lia.
        specialize (Hmax j b Hj). lia.
    + apply IH.
      * rewrite lookup_app_l by lia. assumption.
      * intros j b Hj. apply lookup_app_Some in Hj as [Hj|[_ Hj]].
        -- now apply (Hmax j).
        -- apply list_lookup_singleton_Some in Hj as [_ <-]. lia.
      * intros j b Hlt Hj. rewrite lookup_app_l in Hj by lia.
        now apply (Hfirst j).
Qed.

(** The search of [medianCut] finds the first box of largest volume. *)
Lemma largestIndex_spec boxes :
  boxes <> [] -> exists box, Spec.largestVolume boxes (largestIndex boxes) box.
Proof.
  destruct boxes as [|box0 rest]; [congruence|]. intros _.
  apply (largestFrom_spec rest [box0] 0%nat box0).
  - reflexivity.
  - intros j b Hj. apply list_lookup_singleton_Some in Hj as [_ <-]. lia.
  - intros j b Hlt. lia.
Qed.

(** The dimension [splitBox] sorts on has the largest range, unless green
    and blue tie above red. *)
Lemma sortDimension_widest ps : Spec.widestChannel ps (sortDimension ps).
Proof.
  unfold Spec.widestChannel, sortDimension.
  destruct (Z.gtb_spec (rangeOf 1 ps) (rangeOf 0 ps));
    destruct (Z.gtb_spec (rangeOf 1 ps) (rangeOf 2 ps));
    destruct (Z.gtb_spec (rangeOf 2 ps) (rangeOf 0 ps));
    destruct (Z.gtb_spec (rangeOf 2 ps) (rangeOf 1 ps)); simpl;
    (split; [lia|]);
    first [ left; intros [|[|[|e]]] He; (lia || (change (rangeOf (S (S (S e))) ps) with (rangeOf 2 ps); lia))
          | right; lia ].
Qed.

Lemma splitBox_split box :
  Spec.medianSplit box (sortDimension (boxPixels box)) (splitBox box).1 (splitBox box).2.
Proof.
  unfold Spec.medianSplit.
  exists (stable_sort Pixel
            (fun a b => channel (sortDimension (boxPixels box)) a
                        - channel (sortDimension (boxPixels box)) b)
            (boxPixels box)).
  split.
  - apply (stable_sort_result (channel (sortDimension (boxPixels box)))).
    intros a b. reflexivity.
  - destruct box as [|item box]; [split; reflexivity|].
    split; reflexivity.
Qed.

Lemma cutOnce_step boxes : boxes <> [] -> Spec.cutStep boxes (cutOnce boxes).
Proof.
  intros Hne. destruct (largestIndex_spec boxes Hne) as [box Hbox].
  unfold cutOnce, cutOnce_on.
  assert (Hnth : nth (largestIndex boxes) boxes [] = box).
  { destruct Hbox as [Hlook _]. now apply nth_lookup_Some with (d := []) in Hlook. }
  rewrite Hnth. fold (splitBox box).
  pose proof (splitBox_split box) as Hsplit.
  destruct (splitBox box) as [box1 box2]. unfold splice2.
  eapply Spec.cut_step; [exact Hbox | apply sortDimension_widest | exact Hsplit].
Qed.

Lemma cutLoop_steps boxes colorCount :
  boxes <> [] ->
  Spec.cutSteps (Z.to_nat (colorCount - Z.of_nat (length boxes))) boxes
                (cutLoop boxes colorCount).
Proof.
  unfold cutLoop.
  funelim (cutLoop_on stable_sort boxes colorCount); intros Hne.
  - replace (Z.to_nat (colorCount - Z.of_nat (length boxes)))
      with (S (Z.to_nat (colorCount - Z.of_nat (length (cutOnce_on stable_sort boxes)))))
      by (rewrite cutOnce_length by assumption; lia).
    eapply Spec.cut_more; [now apply cutOnce_step|].
    apply H, cutOnce_nonempty.
  - replace (Z.to_nat (colorCount - Z.of_nat (length boxes))) with 0%nat by lia.
    constructor.
Qed.

Lemma fold_count (ps : list Pixel) : forall c,
  fold_left (fun c _ => c + 1) ps c = c + Z.of_nat (length ps).
Proof.
  induction ps as [|p ps IH]; intros c; simpl; [lia|]. rewrite IH. lia.
Qed.

Lemma roundDiv_nearest total n :
  0 < n -> exists q, roundDiv total n = Num q /\ 2 * n * q - n <= 2 * total < 2 * n * q + n.
Proof.
  intros Hn. unfold roundDiv.
  destruct (Z.eqb_spec n 0); [lia|].
  exists ((2 * total + n) / (2 * n)). split; [reflexivity|].
  pose proof (Z.mul_div_le (2 * total + n) (2 * n)).
  pose proof (Z.mul_succ_div_gt (2 * total + n) (2 * n)).
  lia.
Qed.

(** [getAverageColor] returns the rounded mean of each channel. *)
Lemma getAverageColor_mean box :
  boxPixels box <> [] ->
  exists r g b,
    getAverageColor box = (Num r, Num g, Num b) /\
    Spec.roundedMean 0 (boxPixels box) r /\
    Spec.roundedMean 1 (boxPixels box) g /\
    Spec.roundedMean 2 (boxPixels box) b.
Proof.
  intros Hne. unfold getAverageColor, Spec.roundedMean. cbv zeta.
  rewrite fold_count, Z.add_0_l.
  assert (Hn : 0 < Z.of_nat (length (boxPixels box)))
    by (destruct (boxPixels box); [congruence | simpl; lia]).
  destruct (roundDiv_nearest (fold_left (fun t p => t + pxR p) (boxPixels box) 0) _ Hn)
    as (r & -> & Hr).
  destruct (roundDiv_nearest (fold_left (fun t p => t + pxG p) (boxPixels box) 0) _ Hn)
    as (g & -> & Hg).
  destruct (roundDiv_nearest (fold_left (fun t p => t + pxB p) (boxPixels box) 0) _ Hn)
    as (b & -> & Hb).
  exists r, g, b.
  split; [reflexivity|]. split; [exact Hr|]. split; [exact Hg | exact Hb].
Qed.
End Cut.

(** C3, as the specification words it, fails: the split is not made on the
    channel of highest variance. In this sample of three buckets, cut into
    two groups, red has the largest range (100 against 90) and is the
    channel sorted on, while green has the higher variance. *)
Lemma highestVariance_counterexample :
  ~ Spec.highestVarianceSplits
      [mkPixel 100 0 0; mkPixel 0 0 0; mkPixel 0 90 0; mkPixel 0 90 0; mkPixel 0 90 0] 2.
Proof.
  intros H. specialize (H 0%nat eq_refl 1%nat). vm_compute in H.
  apply H; [lia | reflexivity].
Qed.

(** C3 (amended): for a requested size [colorCount >= 1] and a sample whose
    histogram has more than [colorCount] entries, [medianCut] starts from the
    histogram sorted by descending count as the only group and runs
    [colorCount - 1] steps; each step selects the first group of largest
    colour volume and replaces it by the two halves of its pixels, sorted on
    the channel with the largest range (max minus min; nothing is claimed
    when green and blue tie for the largest range above red) and cut at index
    [floor(n / 2)]; the loop ends with exactly [colorCount] groups, and the
    palette holds, for each group in order, the rounded mean of its pixels
    per channel. *)
Theorem medianCut_steps (pixelArray : list Pixel) (colorCount : Z) :
  1 <= colorCount < Z.of_nat (length (getHistogram pixelArray)) ->
  exists start boxes,
    sorted_result (fun a b => count b - count a) (getHistogram pixelArray) start /\
    Spec.cutSteps (Z.to_nat (colorCount - 1)) [start] boxes /\
    Z.of_nat (length boxes) = colorCount /\
    medianCut pixelArray colorCount = map getAverageColor boxes /\
    Forall (fun box =>
              boxPixels box <> [] ->
              exists r g b,
                getAverageColor box = (Num r, Num g, Num b) /\
                Spec.roundedMean 0 (boxPixels box) r /\
                Spec.roundedMean 1 (boxPixels box) g /\
                Spec.roundedMean 2 (boxPixels box) b)
           boxes.
Proof.
  intros [Hlo Hhi].
  set (start := stable_sort HistItem (fun a b => count b - count a) (getHistogram pixelArray)).
  exists start, (cutLoop [start] colorCount).
  split; [|split; [|split; [|split]]].
  - apply (stable_sort_result (fun h => - count h)). intros a b. lia.
  - apply (cutLoop_steps [start] colorCount). discriminate.
  - unfold cutLoop. rewrite cutLoop_length by discriminate. simpl. lia.
  - unfold medianCut, medianCut_on.
    destruct (Z.leb_spec (Z.of_nat (length (getHistogram pixelArray))) colorCount); [lia|].
    reflexivity.
  - apply Forall_forall. intros box _. apply getAverageColor_mean.
Qed.

(** ** C5: the fallback palette is a function of the hash of the address *)
Section Fallback.
Context {Extra : Type} (derive : num -> num -> num -> Extra).

Lemma paletteIndex_range imageSrc : 0 <= paletteIndex imageSrc < 5.
Proof.
  unfold paletteIndex. change (Z.of_nat (length palettes)) with 5.
  pose proof (Z.abs_nonneg (hashOf imageSrc)).
  pose proof (Z.rem_bound_pos (Z.abs (hashOf imageSrc)) 5). lia.
Qed.

Lemma palettes_lookup imageSrc :
  exists theme, palettes !! Z.to_nat (paletteIndex imageSrc) = Some theme.
Proof.
  pose proof (paletteIndex_range imageSrc) as Hr.
  destruct (Z.to_nat (paletteIndex imageSrc)) as [|[|[|[|[|n]]]]] eqn:Hn;
    try (eexists; reflexivity).
  lia.
Qed.
End Fallback.

(** C5: the cross-origin fallback never fails and returns one of the five
    theme palettes, selected by the hash of the image address alone: two
    addresses with the same hash -- in particular the same address given
    twice -- get identical palettes. *)
Theorem fallback_by_hash {Extra : Type} (derive : num -> num -> num -> Extra)
    (src1 src2 : string) :
  hashOf src1 = hashOf src2 ->
  getDefaultPaletteVariation derive src1 = getDefaultPaletteVariation derive src2 /\
  exists theme,
    theme ∈ palettes /\
    palettes !! Z.to_nat (Z.rem (Z.abs (hashOf src1)) 5) = Some theme /\
    getDefaultPaletteVariation derive src1
    = Return (map (fun c : Z * Z * Z =>
                     let '(r, g, b) := c in colorObject derive (Num r, Num g, Num b))
                  theme).
Proof.
  intros Hhash. split.
  - unfold getDefaultPaletteVariation, paletteIndex. now rewrite Hhash.
  - destruct (palettes_lookup src1) as [theme Htheme].
    exists theme. split; [|split].
    + eapply list_elem_of_lookup_2. exact Htheme.
    + exact Htheme.
    + unfold getDefaultPaletteVariation. now rewrite Htheme.
Qed.

(** ** C10: [rgbToHex] and back *)
Lemma readsBack_all : forallb Spec.readsBack (map Z.of_nat (seq 0 256)) = true.
Proof. vm_compute. reflexivity. Qed.

Lemma hexPair_byte x :
  0 <= x <= 255 ->
  exists hi lo, hexPair (Num x) = String hi (String lo EmptyString) /\
                Spec.parsePair hi lo = Some x.
Proof.
  intros Hx.
  assert (Hin : In x (map Z.of_nat (seq 0 256))).
  { apply in_map_iff. exists (Z.to_nat x). split; [lia|]. apply in_seq. lia. }
  pose proof (proj1 (forallb_forall _ _) readsBack_all x Hin) as Hok.
  unfold Spec.readsBack in Hok.
  destruct (hexPair (Num x)) as [|hi [|lo [|c rest]]]; try discriminate Hok.
  destruct (Spec.parsePair hi lo) as [y|] eqn:Hy; [|discriminate Hok].
  apply Z.eqb_eq in Hok. subst y. exists hi, lo. split; [reflexivity | exact Hy].
Qed.

(** C10: for [r], [g], [b] in 0..255, [rgbToHex] returns seven characters,
    [#] followed by six hexadecimal digits, and reading the three pairs of
    digits back gives [r], [g] and [b]. *)
Theorem rgbToHex_roundtrip (r g b : Z) :
  0 <= r <= 255 -> 0 <= g <= 255 -> 0 <= b <= 255 ->
  String.length (rgbToHex (Num r) (Num g) (Num b)) = 7%nat /\
  (exists r1 r2 g1 g2 b1 b2,
     rgbToHex (Num r) (Num g) (Num b)
     = String "#" (String r1 (String r2 (String g1 (String g2 (String b1 (String b2 EmptyString)))))) /\
     Forall (fun c => is_Some (Spec.hexValue c)) [r1; r2; g1; g2; b1; b2]) /\
  Spec.parseHex (rgbToHex (Num r) (Num g) (Num b)) = Some (r, g, b).
Proof.
  intros Hr Hg Hb.
  destruct (hexPair_byte r Hr) as (r1 & r2 & Er & Pr).
  destruct (hexPair_byte g Hg) as (g1 & g2 & Eg & Pg).
  destruct (hexPair_byte b Hb) as (b1 & b2 & Eb & Pb).
  unfold rgbToHex. rewrite Er, Eg, Eb. simpl.
  split; [reflexivity|]. split.
  - exists r1, r2, g1, g2, b1, b2. split; [reflexivity|].
    assert (Hd : forall hi lo x, Spec.parsePair hi lo = Some x ->
                   is_Some (Spec.hexValue hi) /\ is_Some (Spec.hexValue lo)).
    { intros hi lo x. unfold Spec.parsePair.
      destruct (Spec.hexValue hi), (Spec.hexValue lo); try discriminate.
      intros _. split; eexists; reflexivity. }
    destruct (Hd _ _ _ Pr), (Hd _ _ _ Pg), (Hd _ _ _ Pb).
    repeat (constructor; [assumption|]). constructor.
  - now rewrite Pr, Pg, Pb.
Qed.

(** ** C2: [extractColors] on an image whose pixels can be read *)
Section Analysis.
Context {Extra : Type} (derive : num -> num -> num -> Extra) (defaultExtra : Extra).

(** Whenever the canvas can be read, the reference to [pixels] after the
    [try] block raises. *)
Lemma analyzeImage_readable image colorCount quality data :
  match materialMap image with
  | Some mapImage => mapImage
  | None => Some (drawable image)
  end = Some (PixelData data) ->
  analyzeImage derive defaultExtra image colorCount quality
  = Throw (ReferenceError "pixels").
Proof.
  intros Himg. unfold analyzeImage, analyzeImage_in. now rewrite Himg.
Qed.


End Analysis.

(** C2 fails on the code: on a fresh extractor, [extractColors] with the
    default options on a same-origin image of one opaque pixel does not
    return a palette; the call is rejected with the [ReferenceError] that
    the reference to [pixels] raises, and nothing is cached. *)
Theorem extractColors_rejects {Extra : Type} (derive : num -> num -> num -> Extra)
    (defaultExtra : Extra) :
  extractColors derive defaultExtra
    (imgElement "img/cosmos.png" (PixelData [mkRGBA 10 20 30 255]))
    (mkOptions None None None) newExtractor
  = (Throw (ReferenceError "pixels"), newExtractor).
Proof. reflexivity. Qed.

(** ** C9: the cache only grows *)
Section Cache.
Context {Extra : Type} (derive : num -> num -> num -> Extra) (defaultExtra : Extra).





(** An uninterrupted call is the call up to its [await] followed at once by
    its own resumption. *)
Lemma extractColors_call_resume image options s :
  match extractColors_call derive defaultExtra image options s with
  | (Some cached, s1) =>
      extractColors derive defaultExtra image options s = (Return cached, s1)
  | (None, s1) =>
      extractColors_resume (length (suspended s)) s1
      = (Some (extractColors derive defaultExtra image options s).1,
         (extractColors derive defaultExtra image options s).2)
  end.
Proof.
  unfold extractColors, extractColors_call.
  destruct (if default true (optUseCache options)
            then colorCache s !! cacheKey image else None) as [cached|]; [reflexivity|].
  unfold extractColors_resume. cbn [suspended colorCache].
  rewrite lookup_app_r, Nat.sub_diag by lia. cbn [lookup list_lookup suspAnalysis].
  rewrite (delete_middle (suspended s) []), app_nil_r.
  destruct (analyzeImage derive defaultExtra image _ _) as [colors|e]; destruct s; reflexivity.
Qed.


End Cache.



(** ** C8: the promise of [waitForImage] *)
Section Waiting.
Import CosmicGallery.

Lemma elapsed_from events : forall t,
  fold_left (fun t e => match e with Elapse ms => t + Z.of_N ms | _ => t end) events t
  = t + elapsed events.
Proof.
  unfold elapsed. induction events as [|e events IH]; intros t; simpl; [lia|].
  rewrite IH. rewrite (IH (match e with Elapse ms => 0 + Z.of_N ms | _ => 0 end)).
  destruct e; lia.
Qed.

Lemma elapsed_cons e events :
  elapsed (e :: events)
  = match e with Elapse ms => Z.of_N ms | _ => 0 end + elapsed events.
Proof.
  unfold elapsed at 1. simpl. rewrite elapsed_from. destruct e; lia.
Qed.

Lemma elapsed_nonneg events : 0 <= elapsed events.
Proof.
  induction events as [|e events IH]; [reflexivity|].
  rewrite elapsed_cons. destruct e; lia.
Qed.

(** A settled promise stays as it is. *)
Lemma after_fulfilled events : forall w,
  promise w = Fulfilled -> promise (after events w) = Fulfilled.
Proof.
  induction events as [|e events IH]; intros w Hw; simpl; [assumption|].
  apply IH. destruct e; simpl.
  - unfold fireTimer; simpl. destruct (timeoutId w) as [due|]; simpl; [|assumption].
    destruct (due <=? now w + Z.of_N ms); simpl; [now rewrite Hw | assumption].
  - destruct (onLoad w); simpl; [now rewrite Hw | assumption].
  - destruct (onError w); simpl; [now rewrite Hw | assumption].
Qed.

(** While the promise is pending, the timer is armed and both listeners are
    attached; a signal, or an event at or after the due time, settles
    it. *)
Lemma after_armed due events : forall w,
  promise w = Pending -> timeoutId w = Some due ->
  onLoad w = true -> onError w = true ->
  now (after events w) = now w + elapsed events /\
  (promise (after events w) = Fulfilled \/
   (promise (after events w) = Pending /\ timeoutId (after events w) = Some due /\
    existsb isSignal events = false /\ (events = [] \/ now (after events w) < due))).
Proof.
  induction events as [|e events IH]; intros w Hp Ht Hl He.
  - simpl. split; [unfold elapsed; simpl; lia|]. right. repeat split; auto.
  - rewrite elapsed_cons. change (after (e :: events) w) with (after events (deliver w e)).
    assert (Hnow : now (deliver w e)
                   = now w + match e with Elapse ms => Z.of_N ms | _ => 0 end).
    { destruct e; simpl.
      - unfold fireTimer; simpl. rewrite Ht. destruct (due <=? now w + Z.of_N ms); reflexivity.
      - rewrite Hl. simpl. lia.
      - rewrite He. simpl. lia. }
    assert (Hcase : promise (deliver w e) = Fulfilled \/
                    (isSignal e = false /\ promise (deliver w e) = Pending /\
                     timeoutId (deliver w e) = Some due /\
                     onLoad (deliver w e) = true /\ onError (deliver w e) = true /\
                     now (deliver w e) < due)).
    { destruct e; simpl.
      - unfold fireTimer; simpl. rewrite Ht.
        destruct (Z.leb_spec due (now w + Z.of_N ms)); simpl.
        + left. now rewrite Hp.
        + right. repeat split; auto.
      - left. rewrite Hl. simpl. now rewrite Hp.
      - left. rewrite He. simpl. now rewrite Hp. }
    destruct Hcase as [Hf|(Hsig & Hp' & Ht' & Hl' & He' & Hlt)].
    + split; [|left; now apply after_fulfilled].
      clear IH Hp Ht Hl He Hf. revert Hnow. generalize (deliver w e). intros w1 Hnow.
      assert (forall evs w, now (after evs w) = now w + elapsed evs) as Hgen.
      { induction evs as [|e' evs IHe]; intros w2; [unfold elapsed; simpl; lia|].
        rewrite elapsed_cons. change (after (e' :: evs) w2) with (after evs (deliver w2 e')).
        rewrite IHe. destruct e'; simpl.
        - unfold fireTimer; simpl. destruct (timeoutId w2) as [d|]; simpl; [|lia].
          destruct (d <=? now w2 + Z.of_N ms); simpl; lia.
        - destruct (onLoad w2); simpl; lia.
        - destruct (onError w2); simpl; lia. }
      rewrite Hgen, Hnow. lia.
    + destruct (IH (deliver w e) Hp' Ht' Hl' He') as [Hn Hrest].
      split; [rewrite Hn, Hnow; lia|].
      destruct Hrest as [Hf|(Hp'' & Ht'' & Hs'' & Hlt'')]; [now left|].
      right. split; [assumption|]. split; [assumption|].
      split; [simpl; now rewrite Hsig|].
      right. destruct Hlt'' as [->|Hlt'']; [exact Hlt | exact Hlt''].
Qed.
End Waiting.

(** C8: the promise of [waitForImage] is never rejected, whatever the image
    does; it is fulfilled at once for a complete image, after a [load] or an
    [error] event, and as soon as an event is handled once the timeout has
    elapsed; until then it is pending with the timer still armed. *)
Theorem waitForImage_resolves (complete : bool) (timeout : Z)
    (events : list CosmicGallery.ImageEvent) :
  let w := CosmicGallery.after events (CosmicGallery.waitForImage complete timeout) in
  CosmicGallery.promise w <> CosmicGallery.Rejected /\
  (complete = true -> CosmicGallery.promise w = CosmicGallery.Fulfilled) /\
  (existsb CosmicGallery.isSignal events = true ->
   CosmicGallery.promise w = CosmicGallery.Fulfilled) /\
  (events <> [] -> timeout <= CosmicGallery.elapsed events ->
   CosmicGallery.promise w = CosmicGallery.Fulfilled) /\
  (CosmicGallery.promise w = CosmicGallery.Pending ->
   CosmicGallery.timeoutId w = Some (Z.max 0 timeout)).
Proof.
  intros w. subst w. destruct complete.
  - assert (Hf : CosmicGallery.promise
                   (CosmicGallery.after events (CosmicGallery.waitForImage true timeout))
                 = CosmicGallery.Fulfilled) by (apply after_fulfilled; reflexivity).
    rewrite Hf. repeat split; intros; try reflexivity; discriminate.
  - destruct (after_armed (Z.max 0 timeout) events (CosmicGallery.waitForImage false timeout))
      as [Hnow [Hf|(Hp & Ht & Hsig & Hlt)]]; try reflexivity.
    + rewrite Hf. repeat split; intros; try reflexivity; discriminate.
    + rewrite Hp. split; [discriminate|]. split; [discriminate|].
      split; [intros Hs; rewrite Hs in Hsig; discriminate|].
      split; [|intros _; exact Ht].
      intros Hne Hel. destruct Hlt as [->|Hlt]; [congruence|].
      rewrite Hnow in Hlt. simpl in Hlt.
      pose proof (elapsed_nonneg events). lia.
Qed.

(** ** C7: overlays *)
Section OverlayFacts.
Import Overlays.

Lemma close_all_body handlers : forall doc,
  body (fold_left (fun d o => close o d) handlers doc) = body doc.
Proof.
  induction handlers as [|o handlers IH]; intros doc; simpl; [reflexivity|].
  now rewrite IH.
Qed.


End OverlayFacts.



(** ** C6: lazy loading *)
Section LazyFacts.
Import LazyLoad.
Variable page : Page.

Lemma classList_classAdd c x d e :
  classList (classAdd c x d) e
  = if decide (x = e) then classList d x ∪ {[c]} else classList d e.
Proof.
  unfold classList at 1. simpl. destruct (decide (x = e)) as [->|Hne].
  - now rewrite lookup_insert_eq.
  - now rewrite lookup_insert_ne.
Qed.

Lemma classList_classRemove c x d e :
  classList (classRemove c x d) e
  = if decide (x = e) then classList d x ∖ {[c]} else classList d e.
Proof.
  unfold classList at 1. simpl. destruct (decide (x = e)) as [->|Hne].
  - now rewrite lookup_insert_eq.
  - now rewrite lookup_insert_ne.
Qed.

Lemma markLoaded_other item d e :
  item <> e ->
  classList (markLoaded item d) e = classList d e /\
  preloading (markLoaded item d) = preloading d.
Proof.
  intros Hne. unfold markLoaded. split; [|reflexivity].
  rewrite classList_classAdd, decide_False by assumption.
  now rewrite classList_classRemove, decide_False.
Qed.

Lemma observeAll_same images : forall d,
  classes (observeAll images d) = classes d /\
  preloading (observeAll images d) = preloading d.
Proof.
  induction images as [|img images IH]; intros d; simpl; [split; reflexivity|].
  destruct (IH (mkDom (classes d) (observed d ∪ {[img]}) (preloading d))) as [-> ->].
  split; reflexivity.
Qed.

(** [fixImages] touches the class lists of elements that contain an image,
    and waits for preloads of such elements only. *)
Lemma fixImages_other items e : forall d,
  (forall item, item ∈ items -> is_Some (itemImage item) -> itemElement item <> e) ->
  classList (fixImages items d) e = classList d e.
Proof.
  induction items as [|item items IH]; intros d Hne; simpl; [reflexivity|].
  unfold fixImages in IH. rewrite IH.
  - destruct (itemImage item) as [[img dataSrc]|] eqn:Himg; [destruct (hasDataSrc dataSrc)|];
      try reflexivity.
    apply markLoaded_other, Hne; [left | rewrite Himg; eexists; reflexivity].
  - intros item' Hin. apply Hne. now right.
Qed.

Lemma fixImages_preloading items x : forall d,
  x ∈ preloading (fixImages items d) ->
  x ∈ preloading d \/
  exists item, item ∈ items /\ is_Some (itemImage item) /\ itemElement item = x.
Proof.
  induction items as [|item items IH]; intros d Hx; simpl in Hx; [now left|].
  unfold fixImages in IH. apply IH in Hx as [Hx|(item' & Hin & Hsome & Heq)].
  - destruct (itemImage item) as [[img dataSrc]|] eqn:Himg; [destruct (hasDataSrc dataSrc)|];
      simpl in Hx.
    + apply elem_of_app in Hx as [Hx|Hx]; [now left|].
      apply list_elem_of_singleton in Hx. right. exists item.
      split; [left|]. split; [rewrite Himg; eexists; reflexivity | now symmetry].
    + now left.
    + now left.
  - right. exists item'. split; [now right|]. split; assumption.
Qed.

(** The callback of the observer gives the marker to the targets that it
    is told are intersecting, and to no other element. *)
Lemma observerCallback_loaded entries e : forall d,
  "loaded" ∈ classList (observerCallback entries d) e ->
  "loaded" ∈ classList d e \/ mkEntry e true ∈ entries.
Proof.
  induction entries as [|entry entries IH]; intros d Hin; simpl in Hin; [now left|].
  unfold observerCallback in IH. apply IH in Hin as [Hin|Hin]; [|right; now right].
  destruct entry as [t [|]]; cbn [isIntersecting target] in Hin; [|now left].
  change ("loaded" ∈ classList (classAdd "loaded" t d) e) in Hin.
  rewrite classList_classAdd in Hin.
  destruct (decide (t = e)) as [->|Hne]; [right; left | now left].
Qed.

Lemma observerCallback_preloading entries : forall d,
  preloading (observerCallback entries d) = preloading d.
Proof.
  induction entries as [|entry entries IH]; intros d; simpl; [reflexivity|].
  unfold observerCallback in IH. rewrite IH. destruct (isIntersecting entry); reflexivity.
Qed.

Hypothesis page_ok : wellFormed page.

(** Along the events of a page, an [<img>] carries the marker only if it
    carried it before or was reported as intersecting, and no [<img>] is
    waited for as a preloading item. *)
Lemma play_invariant events : forall d e,
  e ∈ imgElements page ->
  (forall x, x ∈ preloading d -> x ∉ imgElements page) ->
  (forall x, x ∈ preloading (play page events d) -> x ∉ imgElements page) /\
  ("loaded" ∈ classList (play page events d) e ->
   "loaded" ∈ classList d e \/ reportedIntersecting e events).
Proof.
  induction events as [|ev events IH]; intros d e He Hpre; simpl.
  - split; [assumption | now left].
  - assert (Hpre' : forall x, x ∈ preloading (handle page d ev) -> x ∉ imgElements page).
    { destruct ev as [| |entries|n]; simpl.
      - destruct (observeAll_same (vincentImages page) d) as [_ ->]. assumption.
      - intros x Hx. apply fixImages_preloading in Hx as [Hx|(item & Hin & Hsome & <-)].
        + now apply Hpre.
        + now apply page_ok.
      - rewrite observerCallback_preloading. assumption.
      - destruct (preloading d !! n) as [item|] eqn:Hn; [|assumption].
        simpl. intros x Hx. apply Hpre. eapply list_elem_of_delete_inv. exact Hx. }
    assert (Hstep : "loaded" ∈ classList (handle page d ev) e ->
                    "loaded" ∈ classList d e \/ exists entries,
                      ev = Intersections entries /\ mkEntry e true ∈ entries).
    { destruct ev as [| |entries|n]; simpl.
      - unfold classList. destruct (observeAll_same (vincentImages page) d) as [-> _].
        now left.
      - rewrite fixImages_other; [now left|].
        intros item Hin Hsome Heq. apply (page_ok item Hin Hsome). now rewrite Heq.
      - intros Hin. apply observerCallback_loaded in Hin as [Hin|Hin]; [now left|].
        right. exists entries. split; [reflexivity | assumption].
      - destruct (preloading d !! n) as [item|] eqn:Hn; [|now left].
        assert (Hne : item <> e).
        { intros ->. apply (Hpre e); [|assumption]. eapply list_elem_of_lookup_2. exact Hn. }
        destruct (markLoaded_other item
                    (mkDom (classes d) (observed d) (delete n (preloading d))) e Hne)
          as [-> _].
        now left. }
    destruct (IH (handle page d ev) e He Hpre') as [Hp Hl].
    split; [exact Hp|]. intros Hin. apply Hl in Hin as [Hin|(entries & Hev & Hent)].
    + apply Hstep in Hin as [Hin|(entries & -> & Hent)]; [now left|].
      right. exists entries. split; [left | assumption].
    + right. exists entries. split; [now right | assumption].
Qed.
End LazyFacts.

(** C6: an image element gains the "loaded" marker only after it has been
    reported as intersecting. On a page whose markup gives the marker to no
    [<img>], after any sequence of events (either script starting, observer
    reports, preloads finishing) an [<img>] that carries "loaded" has been
    the target of an observer entry with [isIntersecting] before. *)
Theorem loaded_only_after_intersection (page : LazyLoad.Page)
    (markup : gmap nat (gset string)) (events : list LazyLoad.PageEvent) (e : nat) :
  LazyLoad.wellFormed page ->
  e ∈ LazyLoad.imgElements page ->
  "loaded" ∉ LazyLoad.classList (LazyLoad.mkDom markup ∅ []) e ->
  "loaded" ∈ LazyLoad.classList (LazyLoad.play page events (LazyLoad.mkDom markup ∅ [])) e ->
  LazyLoad.reportedIntersecting e events.
Proof.
  intros Hwf He Hmarkup Hloaded.
  destruct (play_invariant page Hwf events (LazyLoad.mkDom markup ∅ []) e He) as [_ H].
  - intros x Hx. now apply elem_of_nil in Hx.
  - destruct (H Hloaded) as [Hin|Hrep]; [contradiction | exact Hrep].
Qed.

(** [fixImages] gives the marker to the element that contains the image, not
    to the image, and needs no report from an observer for it. *)
Example fixImages_marks_container :
  ("loaded" ∈ LazyLoad.classList
                (LazyLoad.play
                   (LazyLoad.mkPage {[1%nat]} [] [LazyLoad.mkGalleryItem 0 (Some (1%nat, None))])
                   [LazyLoad.StartSimpleGallery] (LazyLoad.mkDom ∅ ∅ [])) 0%nat) /\
  ("loaded" ∉ LazyLoad.classList
                (LazyLoad.play
                   (LazyLoad.mkPage {[1%nat]} [] [LazyLoad.mkGalleryItem 0 (Some (1%nat, None))])
                   [LazyLoad.StartSimpleGallery] (LazyLoad.mkDom ∅ ∅ [])) 1%nat).
Proof.
  split; apply (bool_decide_unpack _); vm_compute; exact I.
Qed.

(** ** Instances *)

(** C1 at a sample of five pixels in three buckets, for two colours. *)
Lemma medianCut_count_witness :
  1 <= 2 /\
  Z.of_nat (length (medianCut
    [mkPixel 100 0 0; mkPixel 0 0 0; mkPixel 0 90 0; mkPixel 0 90 0; mkPixel 0 90 0] 2)) = 2.
Proof.
  split; [lia|].
  refine (proj1 (medianCut_count
    [mkPixel 100 0 0; mkPixel 0 0 0; mkPixel 0 90 0; mkPixel 0 90 0; mkPixel 0 90 0] 2 _) _).
  - lia.
  - vm_compute. reflexivity.
Defined.

(** C3 at the same sample. *)
Lemma medianCut_steps_witness :
  (1 <= 2 < Z.of_nat (length (getHistogram
     [mkPixel 100 0 0; mkPixel 0 0 0; mkPixel 0 90 0; mkPixel 0 90 0; mkPixel 0 90 0]))) /\
  exists start boxes,
    Spec.cutSteps 1 [start] boxes /\
    medianCut [mkPixel 100 0 0; mkPixel 0 0 0; mkPixel 0 90 0; mkPixel 0 90 0; mkPixel 0 90 0] 2
    = map getAverageColor boxes.
Proof.
  assert (H : 1 <= 2 < Z.of_nat (length (getHistogram
     [mkPixel 100 0 0; mkPixel 0 0 0; mkPixel 0 90 0; mkPixel 0 90 0; mkPixel 0 90 0])))
    by (split; [lia | vm_compute; reflexivity]).
  split; [exact H|].
  destruct (medianCut_steps _ 2 H) as (start & boxes & _ & Hsteps & _ & Hpalette & _).
  exists start, boxes. split; [exact Hsteps | exact Hpalette].
Defined.

(** C4 for the two insertion sorts. *)
Lemma medianCut_deterministic_witness :
  conforming stable_sort /\ conforming forward_sort /\
  medianCut_on stable_sort
    [mkPixel 100 0 0; mkPixel 0 0 0; mkPixel 0 90 0; mkPixel 0 90 0; mkPixel 0 90 0] 2
  = medianCut_on forward_sort
    [mkPixel 100 0 0; mkPixel 0 0 0; mkPixel 0 90 0; mkPixel 0 90 0; mkPixel 0 90 0] 2.
Proof.
  split; [apply stable_sort_conforming|]. split; [apply forward_sort_conforming|].
  apply medianCut_deterministic; [apply stable_sort_conforming | apply forward_sort_conforming].
Defined.

(** C5 for two addresses with the same hash. *)
Lemma fallback_by_hash_witness :
  hashOf "Aa" = hashOf "BB" /\
  getDefaultPaletteVariation (fun _ _ _ => tt) "Aa"
  = getDefaultPaletteVariation (fun _ _ _ => tt) "BB".
Proof.
  split; [vm_compute; reflexivity|].
  refine (proj1 (fallback_by_hash (fun _ _ _ => tt) "Aa" "BB" _)).
  vm_compute. reflexivity.
Defined.

(** C6 on a page with one observed image, reported once. *)
Lemma loaded_only_after_intersection_witness :
  LazyLoad.wellFormed
    (LazyLoad.mkPage {[1%nat]} [1%nat] [LazyLoad.mkGalleryItem 0 (Some (1%nat, None))]) /\
  (1%nat ∈ LazyLoad.imgElements
    (LazyLoad.mkPage {[1%nat]} [1%nat] [LazyLoad.mkGalleryItem 0 (Some (1%nat, None))])) /\
  ("loaded" ∉ LazyLoad.classList (LazyLoad.mkDom ∅ ∅ []) 1%nat) /\
  ("loaded" ∈ LazyLoad.classList
    (LazyLoad.play
       (LazyLoad.mkPage {[1%nat]} [1%nat] [LazyLoad.mkGalleryItem 0 (Some (1%nat, None))])
       [LazyLoad.StartObserver; LazyLoad.StartSimpleGallery;
        LazyLoad.Intersections [LazyLoad.mkEntry 1 true]]
       (LazyLoad.mkDom ∅ ∅ [])) 1%nat) /\
  LazyLoad.reportedIntersecting 1
    [LazyLoad.StartObserver; LazyLoad.StartSimpleGallery;
     LazyLoad.Intersections [LazyLoad.mkEntry 1 true]].
Proof.
  assert (Hwf : LazyLoad.wellFormed
    (LazyLoad.mkPage {[1%nat]} [1%nat] [LazyLoad.mkGalleryItem 0 (Some (1%nat, None))])).
  { intros item Hin _. apply list_elem_of_singleton in Hin. subst item.
    apply (bool_decide_unpack _). vm_compute. exact I. }
  assert (Himg : 1%nat ∈ LazyLoad.imgElements
    (LazyLoad.mkPage {[1%nat]} [1%nat] [LazyLoad.mkGalleryItem 0 (Some (1%nat, None))]))
    by (apply (bool_decide_unpack _); vm_compute; exact I).
  assert (Hmarkup : "loaded" ∉ LazyLoad.classList (LazyLoad.mkDom ∅ ∅ []) 1%nat)
    by (apply (bool_decide_unpack _); vm_compute; exact I).
  assert (Hloaded : "loaded" ∈ LazyLoad.classList
    (LazyLoad.play
       (LazyLoad.mkPage {[1%nat]} [1%nat] [LazyLoad.mkGalleryItem 0 (Some (1%nat, None))])
       [LazyLoad.StartObserver; LazyLoad.StartSimpleGallery;
        LazyLoad.Intersections [LazyLoad.mkEntry 1 true]]
       (LazyLoad.mkDom ∅ ∅ [])) 1%nat)
    by (apply (bool_decide_unpack _); vm_compute; exact I).
  split; [exact Hwf|]. split; [exact Himg|]. split; [exact Hmarkup|]. split; [exact Hloaded|].
  exact (loaded_only_after_intersection _ ∅ _ 1%nat Hwf Himg Hmarkup Hloaded).
Defined.


(** C10 at the indigo of the default palette. *)
Lemma rgbToHex_roundtrip_witness :
  (0 <= 99 <= 255 /\ 0 <= 102 <= 255 /\ 0 <= 241 <= 255) /\
  rgbToHex (Num 99) (Num 102) (Num 241) = "#6366f1" /\
  Spec.parseHex (rgbToHex (Num 99) (Num 102) (Num 241)) = Some (99, 102, 241).
Proof.
  split; [lia|]. split; [vm_compute; reflexivity|].
  refine (proj2 (proj2 (rgbToHex_roundtrip 99 102 241 _ _ _))); lia.
Defined.

(** * Further properties of the code *)

(** ** The histogram *)
Section HistogramEntries.
Import Gamut.

Lemma addPixel_elem key p h k it :
  NoDup (map fst h) ->
  (k, it) ∈ addPixel key p h ->
  (k <> key /\ (k, it) ∈ h) \/
  (k = key /\ exists it0, (key, it0) ∈ h /\
                it = mkItem (color it0) (count it0 + 1) (pixels it0 ++ [p])) \/
  (k = key /\ (key ∉ map fst h) /\ it = mkItem p (0 + 1) ([] ++ [p])).
Proof.
  induction h as [|[k0 it0] h IH]; cbn [addPixel map fst]; intros Hnd Hin.
  - apply list_elem_of_singleton in Hin. injection Hin as -> ->.
    right. right. split; [reflexivity|]. split; [apply not_elem_of_nil | reflexivity].
  - apply NoDup_cons in Hnd as [Hk0 Hnd].
    destruct (decide (k0 = key)) as [->|Hne].
    + apply elem_of_cons in Hin as [Hin|Hin].
      * injection Hin as -> ->. right. left. split; [reflexivity|].
        exists it0. split; [left | reflexivity].
      * left. split; [|now right].
        intros ->. apply Hk0. apply list_elem_of_fmap. exists (key, it). split; [reflexivity | exact Hin].
    + apply elem_of_cons in Hin as [Hin|Hin].
      * injection Hin as -> ->. left. split; [assumption | left].
      * destruct (IH Hnd Hin) as [[Hk Hin']|[(-> & it1 & Hin' & ->)|(-> & Hnot & ->)]].
        -- left. split; [assumption | now right].
        -- right. left. split; [reflexivity|]. exists it1. split; [now right | reflexivity].
        -- right. right. split; [reflexivity|]. split; [|reflexivity].
           intros Hin'. apply elem_of_cons in Hin' as [Heq|Hin']; [congruence | contradiction].
Qed.

Lemma addPixel_histogramOf seen p h :
  histogramOf seen h -> histogramOf (seen ++ [p]) (addPixel (bucketKey p) p h).
Proof.
  intros (Hnd & Hseen & Hent). split; [|split].
  - rewrite addPixel_keys. destruct (decide (bucketKey p ∈ map fst h)); [assumption|].
    apply NoDup_app. split; [assumption|]. split; [|apply NoDup_singleton].
    intros x Hx Hx'. apply list_elem_of_singleton in Hx'. now subst.
  - intros q Hq. rewrite addPixel_keys.
    apply elem_of_app in Hq as [Hq|Hq].
    + specialize (Hseen q Hq). destruct (decide (bucketKey p ∈ map fst h)); [assumption|].
      apply elem_of_app. now left.
    + apply list_elem_of_singleton in Hq. subst q.
      destruct (decide (bucketKey p ∈ map fst h)); [assumption|].
      apply elem_of_app. right. left.
  - intros k it Hin. rewrite filter_app, (filter_cons _ p), filter_nil.
    destruct (addPixel_elem _ _ _ _ _ Hnd Hin)
      as [[Hk Hin']|[(-> & it0 & Hin' & ->)|(-> & Hnot & ->)]].
    + destruct (Hent k it Hin') as (Hpx & Hcnt & Hhd).
      rewrite decide_False by congruence. rewrite app_nil_r. repeat split; assumption.
    + destruct (Hent _ it0 Hin') as (Hpx & Hcnt & Hhd).
      rewrite decide_True by reflexivity. cbn [pixels count color].
      split; [now rewrite Hpx|]. split.
      * rewrite length_app. simpl. lia.
      * destruct (pixels it0); [discriminate Hhd | exact Hhd].
    + rewrite decide_True by reflexivity. cbn [pixels count color].
      assert (Hnone : filter (fun q => bucketKey q = bucketKey p) seen = []).
      { destruct (filter (fun q => bucketKey q = bucketKey p) seen) as [|q qs] eqn:Hf;
          [reflexivity|]. exfalso. apply Hnot.
        assert (Hq : q ∈ filter (fun q => bucketKey q = bucketKey p) seen)
          by (rewrite Hf; left).
        apply list_elem_of_filter in Hq as [Hkey Hq]. rewrite <- Hkey. now apply Hseen. }
      rewrite Hnone. repeat split; reflexivity.
Qed.

Lemma keyed_histogramOf ps : forall seen h,
  histogramOf seen h -> histogramOf (seen ++ ps) (keyed ps h).
Proof.
  induction ps as [|p ps IH]; intros seen h Hh.
  - now rewrite app_nil_r.
  - change (keyed (p :: ps) h) with (keyed ps (addPixel (bucketKey p) p h)).
    replace (seen ++ p :: ps) with ((seen ++ [p]) ++ ps) by (now rewrite <- app_assoc).
    apply IH, addPixel_histogramOf, Hh.
Qed.

Lemma getHistogram_histogramOf pixelArray :
  histogramOf pixelArray (keyed pixelArray []).
Proof.
  apply (keyed_histogramOf pixelArray [] []).
  split; [apply NoDup_nil_2|]. split.
  - intros q Hq. now apply elem_of_nil in Hq.
  - intros k it Hin. now apply elem_of_nil in Hin.
Qed.

Lemma boxPixels_cons it box : boxPixels (it :: box) = pixels it ++ boxPixels box.
Proof. reflexivity. Qed.

Lemma addPixel_pixels key p h :
  boxPixels (map snd (addPixel key p h)) ≡ₚ boxPixels (map snd h) ++ [p].
Proof.
  induction h as [|[k it] h IH]; cbn [addPixel map snd].
  - reflexivity.
  - destruct (decide (k = key)); cbn [map snd]; rewrite !boxPixels_cons; cbn [pixels].
    + rewrite <- !app_assoc. apply Permutation_app_head, Permutation_app_comm.
    + rewrite IH. now rewrite app_assoc.
Qed.

Lemma keyed_pixels ps : forall h,
  boxPixels (map snd (keyed ps h)) ≡ₚ boxPixels (map snd h) ++ ps.
Proof.
  induction ps as [|p ps IH]; intros h.
  - now rewrite app_nil_r.
  - change (keyed (p :: ps) h) with (keyed ps (addPixel (bucketKey p) p h)).
    rewrite IH, addPixel_pixels, <- app_assoc. reflexivity.
Qed.

Lemma getHistogram_pixels pixelArray : boxPixels (getHistogram pixelArray) ≡ₚ pixelArray.
Proof. unfold getHistogram. now rewrite keyed_pixels. Qed.
End HistogramEntries.

Lemma histogram_entry (pixelArray : list Pixel) (it : HistItem) :
  it ∈ getHistogram pixelArray ->
  pixels it = filter (fun q => bucketKey q = bucketKey (color it)) pixelArray /\
  count it = Z.of_nat (length (pixels it)) /\
  head (pixels it) = Some (color it) /\
  color it ∈ pixelArray.
Proof.
  intros Hin. unfold getHistogram in Hin.
  apply list_elem_of_fmap in Hin as ([k it'] & -> & Hin). cbn [snd].
  destruct (getHistogram_histogramOf pixelArray) as (_ & _ & Hent).
  destruct (Hent k it' Hin) as (Hpx & Hcnt & Hhd).
  assert (Hcol : color it' ∈ filter (fun q => bucketKey q = k) pixelArray).
  { rewrite <- Hpx. destruct (pixels it') as [|q qs]; [discriminate Hhd|].
    injection Hhd as ->. left. }
  apply list_elem_of_filter in Hcol as [Hkey Hcol].
  rewrite Hkey. repeat split; assumption.
Qed.

(** X1: every entry of the histogram holds exactly the pixels of the sample
    that fall into the bucket of its colour, in sample order; [count] is
    their number, and [color] is the first of them (not the bucket's
    corner). *)
Theorem getHistogram_entries (pixelArray : list Pixel) (it : HistItem) :
  it ∈ getHistogram pixelArray ->
  pixels it = filter (fun q => bucketKey q = bucketKey (color it)) pixelArray /\
  count it = Z.of_nat (length (pixels it)) /\
  head (pixels it) = Some (color it) /\
  color it ∈ pixelArray.
Proof. apply histogram_entry. Qed.

(** X2: the histogram is a partition of the sample: the pixels of its
    entries are the sample rearranged, and no two entries share a bucket. *)
Theorem getHistogram_partition (pixelArray : list Pixel) :
  boxPixels (getHistogram pixelArray) ≡ₚ pixelArray /\
  NoDup (map (fun it => bucketKey (color it)) (getHistogram pixelArray)).
Proof.
  split; [apply getHistogram_pixels|].
  destruct (getHistogram_histogramOf pixelArray) as (Hnd & _ & Hent).
  unfold getHistogram. rewrite map_map.
  erewrite map_ext_in; [exact Hnd|].
  intros [k it] Hin. cbn [fst snd]. apply list_elem_of_In in Hin.
  destruct (Hent k it Hin) as (Hpx & _ & Hhd).
  assert (Hcol : color it ∈ filter (fun q => bucketKey q = k) pixelArray).
  { rewrite <- Hpx. destruct (pixels it) as [|q qs]; [discriminate Hhd|].
    injection Hhd as ->. left. }
  now apply list_elem_of_filter in Hcol as [Hkey _].
Qed.

(** ** Ranges and the colour volume *)
Section Ranges.
Import Gamut.

Lemma minOf_from d ps : forall m,
  fold_left (fun m p => Z.min m (channel d p)) ps m <= m /\
  (forall p, p ∈ ps -> fold_left (fun m p => Z.min m (channel d p)) ps m <= channel d p) /\
  (fold_left (fun m p => Z.min m (channel d p)) ps m = m \/
   exists p, p ∈ ps /\ fold_left (fun m p => Z.min m (channel d p)) ps m = channel d p).
Proof.
  induction ps as [|q ps IH]; intros m; simpl.
  - split; [lia|]. split; [|now left]. intros p Hp. now apply elem_of_nil in Hp.
  - destruct (IH (Z.min m (channel d q))) as (Hle & Hall & Hatt).
    split; [lia|]. split.
    + intros p Hp. apply elem_of_cons in Hp as [->|Hp]; [lia | now apply Hall].
    + destruct Hatt as [Heq|(p & Hp & Heq)].
      * destruct (Z.min_spec m (channel d q)) as [[_ Hm]|[_ Hm]]; rewrite Hm in Heq |- *.
        -- now left.
        -- right. exists q. split; [left | exact Heq].
      * right. exists p. split; [now right | exact Heq].
Qed.

Lemma maxOf_from d ps : forall m,
  m <= fold_left (fun m p => Z.max m (channel d p)) ps m /\
  (forall p, p ∈ ps -> channel d p <= fold_left (fun m p => Z.max m (channel d p)) ps m) /\
  (fold_left (fun m p => Z.max m (channel d p)) ps m = m \/
   exists p, p ∈ ps /\ fold_left (fun m p => Z.max m (channel d p)) ps m = channel d p).
Proof.
  induction ps as [|q ps IH]; intros m; simpl.
  - split; [lia|]. split; [|now left]. intros p Hp. now apply elem_of_nil in Hp.
  - destruct (IH (Z.max m (channel d q))) as (Hle & Hall & Hatt).
    split; [lia|]. split.
    + intros p Hp. apply elem_of_cons in Hp as [->|Hp]; [lia | now apply Hall].
    + destruct Hatt as [Heq|(p & Hp & Heq)].
      * destruct (Z.max_spec m (channel d q)) as [[_ Hm]|[_ Hm]]; rewrite Hm in Heq |- *.
        -- right. exists q. split; [left | exact Heq].
        -- now left.
      * right. exists p. split; [now right | exact Heq].
Qed.

Lemma channel_gamut d p : inGamut p -> 0 <= channel d p <= 255.
Proof.
  intros (Hr & Hg & Hb). destruct d as [|[|d]]; simpl; assumption.
Qed.

(** On pixels of the canvas the running minimum and maximum are the channel
    values of a darkest and of a brightest pixel. *)
Lemma range_attained d ps :
  ps <> [] -> Forall inGamut ps ->
  exists lo hi, lo ∈ ps /\ hi ∈ ps /\
    (forall p, p ∈ ps -> channel d lo <= channel d p <= channel d hi) /\
    minOf d ps = channel d lo /\ maxOf d ps = channel d hi.
Proof.
  intros Hne Hgam. rewrite Forall_forall in Hgam.
  destruct (minOf_from d ps 255) as (_ & Hmin & Hminatt).
  destruct (maxOf_from d ps 0) as (_ & Hmax & Hmaxatt).
  fold (minOf d ps) in Hmin, Hminatt. fold (maxOf d ps) in Hmax, Hmaxatt.
  assert (Hlo : exists lo, lo ∈ ps /\ minOf d ps = channel d lo).
  { destruct Hminatt as [Heq|Hex]; [|exact Hex].
    destruct ps as [|q qs]; [congruence|]. exists q. split; [left|].
    specialize (Hmin q ltac:(left)).
    pose proof (channel_gamut d q (Hgam q ltac:(left))). lia. }
  assert (Hhi : exists hi, hi ∈ ps /\ maxOf d ps = channel d hi).
  { destruct Hmaxatt as [Heq|Hex]; [|exact Hex].
    destruct ps as [|q qs]; [congruence|]. exists q. split; [left|].
    specialize (Hmax q ltac:(left)).
    pose proof (channel_gamut d q (Hgam q ltac:(left))). lia. }
  destruct Hlo as (lo & Hlo & Hloeq), Hhi as (hi & Hhi & Hhieq).
  exists lo, hi. repeat split; try assumption.
  - rewrite <- Hloeq. now apply Hmin.
  - rewrite <- Hhieq. now apply Hmax.
Qed.
End Ranges.

(** X3: for a box of canvas pixels, the range of a channel is the distance
    between the channel values of a darkest and a brightest pixel of the box,
    so it lies in 0..255; the colour volume is the product of the three
    ranges and is never negative. *)
Theorem getColorVolume_ranges (box : Box) :
  boxPixels box <> [] -> Forall Gamut.inGamut (boxPixels box) ->
  (forall d, exists lo hi,
     lo ∈ boxPixels box /\ hi ∈ boxPixels box /\
     (forall p, p ∈ boxPixels box -> channel d lo <= channel d p <= channel d hi) /\
     rangeOf d (boxPixels box) = channel d hi - channel d lo /\
     0 <= rangeOf d (boxPixels box) <= 255) /\
  getColorVolume box
  = rangeOf 0 (boxPixels box) * rangeOf 1 (boxPixels box) * rangeOf 2 (boxPixels box) /\
  0 <= getColorVolume box.
Proof.
  intros Hne Hgam.
  assert (Hrange : forall d, exists lo hi,
     lo ∈ boxPixels box /\ hi ∈ boxPixels box /\
     (forall p, p ∈ boxPixels box -> channel d lo <= channel d p <= channel d hi) /\
     rangeOf d (boxPixels box) = channel d hi - channel d lo /\
     0 <= rangeOf d (boxPixels box) <= 255).
  { intros d. destruct (range_attained d _ Hne Hgam) as (lo & hi & Hlo & Hhi & Hall & Hmin & Hmax).
    exists lo, hi. unfold rangeOf. rewrite Hmin, Hmax.
    rewrite Forall_forall in Hgam.
    pose proof (channel_gamut d lo (Hgam lo Hlo)).
    pose proof (channel_gamut d hi (Hgam hi Hhi)).
    pose proof (Hall hi Hhi).
    split; [exact Hlo|]. split; [exact Hhi|]. split; [exact Hall|].
    split; [reflexivity | lia]. }
  split; [exact Hrange|].
  assert (Hvol : getColorVolume box
    = rangeOf 0 (boxPixels box) * rangeOf 1 (boxPixels box) * rangeOf 2 (boxPixels box)).
  { destruct box; [now contradiction Hne | reflexivity]. }
  split; [exact Hvol|]. rewrite Hvol.
  destruct (Hrange 0%nat) as (? & ? & _ & _ & _ & _ & H0).
  destruct (Hrange 1%nat) as (? & ? & _ & _ & _ & _ & H1).
  destruct (Hrange 2%nat) as (? & ? & _ & _ & _ & _ & H2).
  apply Z.mul_nonneg_nonneg; [apply Z.mul_nonneg_nonneg|]; lia.
Qed.

(** ** Splitting conserves the pixels *)
Section Conservation.
Import Gamut.

Lemma concat_map_perm {A B : Type} (f : A -> list B) (l l' : list A) :
  l ≡ₚ l' -> concat (map f l) ≡ₚ concat (map f l').
Proof.
  induction 1 as [|x l l' _ IH|x y l|l l' l'' _ IH1 _ IH2]; simpl.
  - reflexivity.
  - now rewrite IH.
  - rewrite !app_assoc. apply Permutation_app_tail, Permutation_app_comm.
  - now rewrite IH1.
Qed.

Lemma sorted_app_le {A : Type} (R : A -> A -> Prop) (l1 l2 : list A) :
  StronglySorted R (l1 ++ l2) -> forall p q, p ∈ l1 -> q ∈ l2 -> R p q.
Proof.
  induction l1 as [|x l1 IH]; intros Hs p q Hp Hq.
  - now apply elem_of_nil in Hp.
  - simpl in Hs. apply StronglySorted_inv in Hs as [Hs Hall].
    apply elem_of_cons in Hp as [->|Hp]; [|now apply IH].
    rewrite Forall_forall in Hall. apply Hall. apply elem_of_app. now right.
Qed.

(** [splitBox], written out for every box: the early return for an empty box
    gives what the general path would give. *)
Lemma splitBox_eq box :
  splitBox box
  = (getHistogram
       (take (length (boxPixels box) / 2)
          (stable_sort Pixel
             (fun a b => channel (sortDimension (boxPixels box)) a
                         - channel (sortDimension (boxPixels box)) b)
             (boxPixels box))),
     getHistogram
       (drop (length (boxPixels box) / 2)
          (stable_sort Pixel
             (fun a b => channel (sortDimension (boxPixels box)) a
                         - channel (sortDimension (boxPixels box)) b)
             (boxPixels box)))).
Proof.
  assert (Hlen : forall d,
    length (stable_sort Pixel (fun a b => channel d a - channel d b) (boxPixels box))
    = length (boxPixels box)).
  { intros d. symmetry. apply Permutation_length.
    apply (sr_perm _ _ _ (stable_sort_result (channel d) _ (fun a b => eq_refl) _)). }
  destruct box as [|item box]; [reflexivity|].
  unfold splitBox, splitBox_on. cbv zeta. now rewrite Hlen.
Qed.

Lemma cutOnce_pixels boxes :
  boxes <> [] ->
  concat (map boxPixels (cutOnce boxes)) ≡ₚ concat (map boxPixels boxes).
Proof.
  intros Hne.
  pose proof (largestIndex_bound boxes Hne) as Hi.
  destruct (lookup_lt_is_Some_2 boxes _ Hi) as [box Hbox].
  assert (Hnth : nth (largestIndex boxes) boxes [] = box) by (now apply nth_lookup_Some).
  unfold cutOnce, cutOnce_on. rewrite Hnth. fold (splitBox box).
  rewrite splitBox_eq. unfold splice2.
  remember (largestIndex boxes) as i eqn:Hidx. clear Hidx Hnth Hi.
  assert (Hrhs : concat (map boxPixels boxes)
                 = concat (map boxPixels (take i boxes)) ++
                   boxPixels box ++ concat (map boxPixels (drop (S i) boxes))).
  { rewrite <- (take_drop_middle boxes i box Hbox) at 1.
    rewrite map_app, concat_app. reflexivity. }
  rewrite Hrhs, map_app, concat_app. cbn [map concat].
  apply Permutation_app_head. rewrite app_assoc. apply Permutation_app_tail.
  rewrite !getHistogram_pixels, take_drop.
  symmetry. apply (sr_perm _ _ _ (stable_sort_result (channel _) _ (fun a b => eq_refl) _)).
Qed.

Lemma cutLoop_pixels boxes colorCount :
  boxes <> [] ->
  concat (map boxPixels (cutLoop boxes colorCount)) ≡ₚ concat (map boxPixels boxes).
Proof.
  unfold cutLoop. funelim (cutLoop_on stable_sort boxes colorCount); intros Hne.
  - rewrite H by apply cutOnce_nonempty. now apply cutOnce_pixels.
  - reflexivity.
Qed.

Lemma startBoxes_pixels pixelArray :
  concat (map boxPixels (Spec.startBoxes pixelArray)) ≡ₚ pixelArray.
Proof.
  unfold Spec.startBoxes. cbn [map concat]. rewrite app_nil_r.
  rewrite <- (getHistogram_pixels pixelArray) at 2. unfold boxPixels.
  apply concat_map_perm. symmetry.
  assert (Hk : by_key (fun h => - count h) (fun a b : HistItem => count b - count a))
    by (intros a b; lia).
  apply (sr_perm _ _ _ (stable_sort_result _ _ Hk _)).
Qed.

Lemma sum_from d ps : forall t,
  fold_left (fun t p => t + channel d p) ps t
  = t + fold_left (fun t p => t + channel d p) ps 0.
Proof.
  induction ps as [|q ps IH]; intros t; simpl; [lia|].
  rewrite (IH (t + channel d q)), (IH (0 + channel d q)). lia.
Qed.

Lemma sum_bounds d ps :
  Forall inGamut ps ->
  0 <= fold_left (fun t p => t + channel d p) ps 0 <= 255 * Z.of_nat (length ps).
Proof.
  induction 1 as [|q ps Hq _ IH]; simpl; [lia|].
  rewrite sum_from. pose proof (channel_gamut d q Hq). lia.
Qed.
End Conservation.

(** The channel sorted on: green if its range is greater than the two
    others, blue if its range is, and red in every other case. *)
Lemma sortDimension_cases ps :
  (sortDimension ps = 1%nat <->
   rangeOf 0 ps < rangeOf 1 ps /\ rangeOf 2 ps < rangeOf 1 ps) /\
  (sortDimension ps = 2%nat <->
   rangeOf 0 ps < rangeOf 2 ps /\ rangeOf 1 ps < rangeOf 2 ps) /\
  (sortDimension ps = 0%nat <->
   ~ (rangeOf 0 ps < rangeOf 1 ps /\ rangeOf 2 ps < rangeOf 1 ps) /\
   ~ (rangeOf 0 ps < rangeOf 2 ps /\ rangeOf 1 ps < rangeOf 2 ps)).
Proof.
  unfold sortDimension.
  destruct (Z.gtb_spec (rangeOf 1 ps) (rangeOf 0 ps));
    destruct (Z.gtb_spec (rangeOf 1 ps) (rangeOf 2 ps));
    destruct (Z.gtb_spec (rangeOf 2 ps) (rangeOf 0 ps));
    destruct (Z.gtb_spec (rangeOf 2 ps) (rangeOf 1 ps)); cbn [andb];
    repeat split; intros; try discriminate; try reflexivity; lia.
Qed.

(** X4: [splitBox] cuts a box into two boxes that together hold the pixels
    of the box, the first one [floor(n / 2)] of them, and no pixel of the
    first box is above a pixel of the second on the channel sorted on. That
    channel is green when the range of green is greater than the ranges of
    red and of blue, blue when the range of blue is greater than the two
    others, and red in every other case, also when green and blue tie above
    red. An empty box gives two empty boxes. *)
Theorem splitBox_halves (box : Box) :
  boxPixels (splitBox box).1 ++ boxPixels (splitBox box).2 ≡ₚ boxPixels box /\
  length (boxPixels (splitBox box).1) = (length (boxPixels box) / 2)%nat /\
  (forall p q, p ∈ boxPixels (splitBox box).1 -> q ∈ boxPixels (splitBox box).2 ->
     channel (sortDimension (boxPixels box)) p <= channel (sortDimension (boxPixels box)) q) /\
  ((sortDimension (boxPixels box) = 1%nat <->
    rangeOf 0 (boxPixels box) < rangeOf 1 (boxPixels box) /\
    rangeOf 2 (boxPixels box) < rangeOf 1 (boxPixels box)) /\
   (sortDimension (boxPixels box) = 2%nat <->
    rangeOf 0 (boxPixels box) < rangeOf 2 (boxPixels box) /\
    rangeOf 1 (boxPixels box) < rangeOf 2 (boxPixels box)) /\
   (sortDimension (boxPixels box) = 0%nat <->
    ~ (rangeOf 0 (boxPixels box) < rangeOf 1 (boxPixels box) /\
       rangeOf 2 (boxPixels box) < rangeOf 1 (boxPixels box)) /\
    ~ (rangeOf 0 (boxPixels box) < rangeOf 2 (boxPixels box) /\
       rangeOf 1 (boxPixels box) < rangeOf 2 (boxPixels box)))) /\
  (rangeOf 1 (boxPixels box) = rangeOf 2 (boxPixels box) ->
   sortDimension (boxPixels box) = 0%nat) /\
  (box = [] -> splitBox box = ([], [])).
Proof.
  assert (Htie : rangeOf 1 (boxPixels box) = rangeOf 2 (boxPixels box) ->
                 sortDimension (boxPixels box) = 0%nat).
  { intros Heq. apply (sortDimension_cases (boxPixels box)). lia. }
  pose proof (sortDimension_cases (boxPixels box)) as Hcases.
  revert Htie Hcases.
  rewrite splitBox_eq. cbn [fst snd]. intros Htie Hcases.
  set (d := sortDimension (boxPixels box)).
  set (sorted := stable_sort Pixel (fun a b => channel d a - channel d b) (boxPixels box)).
  destruct (stable_sort_result (channel d) (fun a b => channel d a - channel d b)
              (fun a b => eq_refl) (boxPixels box)) as [Hsorted Hperm _].
  fold sorted in Hsorted, Hperm.
  split; [|split; [|split; [|split; [exact Hcases|split; [exact Htie|]]]]].
  - rewrite !getHistogram_pixels, take_drop. now symmetry.
  - rewrite (Permutation_length (getHistogram_pixels _)), length_take.
    rewrite <- (Permutation_length Hperm).
    pose proof (Nat.Div0.div_le_upper_bound (length (boxPixels box)) 2 (length (boxPixels box))).
    lia.
  - intros p q Hp Hq.
    rewrite getHistogram_pixels in Hp. rewrite getHistogram_pixels in Hq.
    rewrite <- (take_drop (length (boxPixels box) / 2) sorted) in Hsorted.
    pose proof (sorted_app_le _ _ _ Hsorted p q Hp Hq) as Hle. simpl in Hle. lia.
  - intros ->. reflexivity.
Qed.

Lemma medianCut_groups (pixelArray : list Pixel) (colorCount : Z) :
  colorCount < Z.of_nat (length (getHistogram pixelArray)) ->
  exists boxes,
    medianCut pixelArray colorCount = map getAverageColor boxes /\
    concat (map boxPixels boxes) ≡ₚ pixelArray.
Proof.
  intros Hlt. exists (cutLoop (Spec.startBoxes pixelArray) colorCount). split.
  - unfold medianCut, medianCut_on.
    destruct (Z.leb_spec (Z.of_nat (length (getHistogram pixelArray))) colorCount); [lia|].
    reflexivity.
  - rewrite cutLoop_pixels by discriminate. apply startBoxes_pixels.
Qed.

(** X5: the quantisation loop neither loses nor invents pixels. When the
    histogram has more entries than colours are asked for, the palette is
    the list of averages of groups that together hold exactly the pixels of
    the sample. *)
Theorem medianCut_conserves (pixelArray : list Pixel) (colorCount : Z) :
  colorCount < Z.of_nat (length (getHistogram pixelArray)) ->
  exists boxes,
    medianCut pixelArray colorCount = map getAverageColor boxes /\
    concat (map boxPixels boxes) ≡ₚ pixelArray.
Proof. apply medianCut_groups. Qed.

Section PaletteBounds.
Import Gamut.

Lemma roundDiv_byte total n :
  0 < n -> 0 <= total <= 255 * n ->
  exists q, roundDiv total n = Num q /\ 0 <= q <= 255.
Proof.
  intros Hn Ht. unfold roundDiv. destruct (Z.eqb_spec n 0); [lia|].
  exists ((2 * total + n) / (2 * n)). split; [reflexivity|]. split.
  - apply Z.div_pos; lia.
  - assert ((2 * total + n) / (2 * n) < 256); [|lia].
    apply Z.div_lt_upper_bound; lia.
Qed.

Lemma getAverageColor_gamut box :
  Forall inGamut (boxPixels box) -> byteOrNaN (getAverageColor box).
Proof.
  intros Hgam. unfold getAverageColor, byteOrNaN. cbv zeta.
  rewrite fold_count, Z.add_0_l.
  destruct (boxPixels box) as [|p ps] eqn:Hps.
  - left. reflexivity.
  - right. rewrite <- Hps in *. 
    assert (Hn : 0 < Z.of_nat (length (boxPixels box))) by (rewrite Hps; simpl; lia).
    pose proof (sum_bounds 0 _ Hgam) as H0.
    pose proof (sum_bounds 1 _ Hgam) as H1.
    pose proof (sum_bounds 2 _ Hgam) as H2.
    destruct (roundDiv_byte _ _ Hn H0) as (r & Hr & Hrb).
    destruct (roundDiv_byte _ _ Hn H1) as (g & Hg & Hgb).
    destruct (roundDiv_byte _ _ Hn H2) as (b & Hb & Hbb).
    exists r, g, b.
    change (fold_left (fun t p => t + pxR p) (boxPixels box) 0)
      with (fold_left (fun t p => t + channel 0 p) (boxPixels box) 0).
    change (fold_left (fun t p => t + pxG p) (boxPixels box) 0)
      with (fold_left (fun t p => t + channel 1 p) (boxPixels box) 0).
    change (fold_left (fun t p => t + pxB p) (boxPixels box) 0)
      with (fold_left (fun t p => t + channel 2 p) (boxPixels box) 0).
    rewrite Hr, Hg, Hb. repeat split; try reflexivity; lia.
Qed.
End PaletteBounds.

(** X6: on a sample of canvas pixels every entry of the palette is a colour
    within 0..255 per channel, or the triple of [NaN] that an empty group
    averages to. *)
Theorem medianCut_in_gamut (pixelArray : list Pixel) (colorCount : Z) :
  Forall Gamut.inGamut pixelArray ->
  Forall Gamut.byteOrNaN (medianCut pixelArray colorCount).
Proof.
  intros Hgam.
  destruct (Z.leb_spec (Z.of_nat (length (getHistogram pixelArray))) colorCount) as [Hle|Hlt].
  - unfold medianCut, medianCut_on.
    destruct (Z.leb_spec (Z.of_nat (length (getHistogram pixelArray))) colorCount); [|lia].
    apply Forall_forall. intros c Hc.
    apply list_elem_of_fmap in Hc as (it & -> & Hit).
    destruct (histogram_entry _ _ Hit) as (_ & _ & _ & Hcol).
    rewrite Forall_forall in Hgam. destruct (Hgam _ Hcol) as (Hr & Hg & Hb).
    right. exists (pxR (color it)), (pxG (color it)), (pxB (color it)).
    repeat split; try reflexivity; lia.
  - destruct (medianCut_groups pixelArray colorCount Hlt) as (boxes & -> & Hperm).
    apply Forall_forall. intros c Hc.
    apply list_elem_of_fmap in Hc as (box & -> & Hbox).
    apply getAverageColor_gamut, Forall_forall. intros p Hp.
    rewrite Forall_forall in Hgam. apply Hgam. rewrite <- Hperm.
    clear -Hp Hbox. induction boxes as [|b boxes IH]; [now apply elem_of_nil in Hbox|].
    cbn [map concat]. apply elem_of_app.
    apply elem_of_cons in Hbox as [<-|Hbox]; [now left | right; now apply IH].
Qed.

(** ** The sampling loop *)
Section Sampling.
Import Gamut.



End Sampling.


(** ** The hash of the address *)
Section Hash.
Import Gamut.

Lemma toInt32_shift x k : toInt32 (x + k * 2 ^ 32) = toInt32 x.
Proof.
  unfold toInt32. replace (x + k * 2 ^ 32 + 2 ^ 31) with (x + 2 ^ 31 + k * 2 ^ 32) by lia.
  now rewrite Z_mod_plus_full.
Qed.

Lemma toInt32_repr x : exists k, toInt32 x = x + k * 2 ^ 32.
Proof.
  exists (- ((x + 2 ^ 31) / 2 ^ 32)). unfold toInt32.
  rewrite Z.mod_eq by lia. lia.
Qed.

Lemma toInt32_range x : - 2 ^ 31 <= toInt32 x < 2 ^ 31.
Proof.
  unfold toInt32. pose proof (Z.mod_pos_bound (x + 2 ^ 31) (2 ^ 32) ltac:(lia)). lia.
Qed.

Lemma toInt32_small x : - 2 ^ 31 <= x < 2 ^ 31 -> toInt32 x = x.
Proof.
  intros Hx. unfold toInt32. rewrite Z.mod_small; lia.
Qed.

(** The reducer computes [31 * a + code], reduced to 32 bits. *)
Lemma hashStep_31 a c : hashStep a c = toInt32 (31 * a + charCode c).
Proof.
  unfold hashStep, band, shl. cbv zeta.
  change (5 mod 32) with 5. rewrite Z.shiftl_mul_pow2 by lia. change (2 ^ 5) with 32.
  rewrite Z.land_diag.
  rewrite (toInt32_small (toInt32 _)) by apply toInt32_range.
  destruct (toInt32_repr a) as [k0 Hk0].
  destruct (toInt32_repr (toInt32 a * 32)) as [k1 Hk1].
  rewrite Hk1, Hk0.
  replace ((a + k0 * 2 ^ 32) * 32 + k1 * 2 ^ 32 - a + charCode c)
    with (31 * a + charCode c + (32 * k0 + k1) * 2 ^ 32) by lia.
  apply toInt32_shift.
Qed.

Lemma hash_fold l : forall a b k,
  a = b + k * 2 ^ 32 ->
  exists k', fold_left hashStep l a
             = fold_left (fun a c => 31 * a + charCode c) l b + k' * 2 ^ 32.
Proof.
  induction l as [|c l IH]; intros a b k Hab; simpl.
  - now exists k.
  - rewrite hashStep_31. destruct (toInt32_repr (31 * a + charCode c)) as [k1 Hk1].
    apply (IH _ _ (31 * k + k1)). rewrite Hk1, Hab. lia.
Qed.

Lemma hash_fold_range l : forall a,
  - 2 ^ 31 <= a < 2 ^ 31 -> - 2 ^ 31 <= fold_left hashStep l a < 2 ^ 31.
Proof.
  induction l as [|c l IH]; intros a Ha; simpl; [exact Ha|].
  apply IH. rewrite hashStep_31. apply toInt32_range.
Qed.
End Hash.

(** X8: the hash that selects the fallback palette is the string hash with
    multiplier 31 (the sum of [code * 31 ^ position]), reduced to a signed
    32-bit integer. *)
Theorem hashOf_polynomial (imageSrc : string) :
  hashOf imageSrc = toInt32 (Gamut.polynomial31 imageSrc) /\
  - 2 ^ 31 <= hashOf imageSrc < 2 ^ 31.
Proof.
  assert (Hr : - 2 ^ 31 <= hashOf imageSrc < 2 ^ 31) by (apply hash_fold_range; lia).
  split; [|exact Hr].
  destruct (hash_fold (list_ascii_of_string imageSrc) 0 0 0 eq_refl) as [k Hk].
  fold (hashOf imageSrc) in Hk. fold (Gamut.polynomial31 imageSrc) in Hk.
  rewrite <- (toInt32_small _ Hr), Hk. apply toInt32_shift.
Qed.

(** ** Fallback palettes *)
Section FallbackShape.
Import Gamut.
Context {Extra : Type} (derive : num -> num -> num -> Extra) (defaultExtra : Extra).

Lemma palettes_checked :
  forallb (fun theme => Nat.eqb (length theme) 5 && forallb wellWritten theme) palettes = true.
Proof. vm_compute. reflexivity. Qed.

Lemma wellWritten_agrees c :
  wellWritten c = true ->
  hexAgrees (let '(r, g, b) := c in colorObject derive (Num r, Num g, Num b)).
Proof.
  destruct c as [[r g] b]. unfold wellWritten. intros H.
  repeat (apply andb_prop in H as [H ?]).
  exists r, g, b. cbn [colorObject rgb hex].
  split; [reflexivity|].
  repeat split; try lia.
  eapply bool_decide_eq_true_1. eassumption.
Qed.

(** The fallback returns five colour objects whose [hex] agrees with their
    [rgb]. *)
Lemma fallback_shape imageSrc :
  exists palette,
    getDefaultPaletteVariation derive imageSrc = Return palette /\
    length palette = 5%nat /\ Forall hexAgrees palette.
Proof.
  destruct (palettes_lookup imageSrc) as [theme Htheme].
  unfold getDefaultPaletteVariation. rewrite Htheme. eexists. split; [reflexivity|].
  pose proof palettes_checked as Hall. rewrite forallb_forall in Hall.
  specialize (Hall theme (proj1 (list_elem_of_In _ _) (list_elem_of_lookup_2 _ _ _ Htheme))).
  apply andb_prop in Hall as [Hlen Hcols]. apply Nat.eqb_eq in Hlen.
  split; [now rewrite length_map|].
  rewrite forallb_forall in Hcols. apply Forall_forall. intros o Ho.
  apply list_elem_of_fmap in Ho as (c & -> & Hc).
  apply wellWritten_agrees, Hcols, list_elem_of_In, Hc.
Qed.

(** Whatever is asked for, [analyzeImage] raises or returns one of the fixed
    palettes. *)
Lemma analyzeImage_cases image colorCount quality :
  analyzeImage derive defaultExtra image colorCount quality = Throw (ReferenceError "pixels") \/
  analyzeImage derive defaultExtra image colorCount quality
  = Return (getDefaultPalette defaultExtra) \/
  exists palette,
    analyzeImage derive defaultExtra image colorCount quality = Return palette /\
    length palette = 5%nat /\ Forall hexAgrees palette.
Proof.
  unfold analyzeImage, analyzeImage_in, moduleScopePixels.
  destruct (match materialMap image with
            | Some mapImage => mapImage
            | None => Some (drawable image)
            end) as [[data|]|].
  - now left.
  - right. right. apply fallback_shape.
  - right. now left.
Qed.
End FallbackShape.

(** X9: whatever the address, the fallback returns exactly five colour
    objects, each with byte channels and a [hex] string that reads back as
    its [rgb]. *)
Theorem getDefaultPaletteVariation_shape {Extra : Type}
    (derive : num -> num -> num -> Extra) (imageSrc : string) :
  exists palette,
    getDefaultPaletteVariation derive imageSrc = Return palette /\
    length palette = 5%nat /\ Forall Gamut.hexAgrees palette.
Proof. apply fallback_shape. Qed.

(** X10: the palette that [analyzeImage] returns does not depend on the
    number of colours or the quality asked for: the call raises the
    [ReferenceError], or returns the default palette of one entry, or a
    fallback palette of five. *)
Theorem analyzeImage_ignores_count {Extra : Type}
    (derive : num -> num -> num -> Extra) (defaultExtra : Extra)
    (image : Image) (colorCount colorCount' : Z) (quality quality' : positive) :
  analyzeImage derive defaultExtra image colorCount quality
  = analyzeImage derive defaultExtra image colorCount' quality' /\
  (analyzeImage derive defaultExtra image colorCount quality = Throw (ReferenceError "pixels") \/
   exists palette,
     analyzeImage derive defaultExtra image colorCount quality = Return palette /\
     (length palette = 1%nat \/ length palette = 5%nat)).
Proof.
  split.
  - unfold analyzeImage, analyzeImage_in, moduleScopePixels.
    destruct (match materialMap image with
              | Some mapImage => mapImage
              | None => Some (drawable image)
              end) as [[data|]|]; reflexivity.
  - destruct (analyzeImage_cases derive defaultExtra image colorCount quality)
      as [H|[H|(palette & H & Hlen & _)]].
    + now left.
    + right. eexists. split; [exact H | now left].
    + right. exists palette. split; [exact H | now right].
Qed.

(** ** Cache hits *)
Section CacheHit.
Context {Extra : Type} (derive : num -> num -> num -> Extra) (defaultExtra : Extra).

Lemma extractColors_cached image options s colors s' :
  extractColors derive defaultExtra image options s = (Return colors, s') ->
  default true (optUseCache options) = true ->
  colorCache s' !! cacheKey image = Some colors.
Proof.
  unfold extractColors. intros Hcall Huse. rewrite Huse in Hcall.
  destruct (colorCache s !! cacheKey image) as [cached|] eqn:Hlook.
  - injection Hcall as <- <-. exact Hlook.
  - destruct (analyzeImage derive defaultExtra image _ _) as [colors'|e]; [|discriminate Hcall].
    injection Hcall as <- <-. cbn [colorCache]. apply lookup_insert_eq.
Qed.

Lemma extractColors_hit image options s colors :
  colorCache s !! cacheKey image = Some colors ->
  default true (optUseCache options) = true ->
  extractColors derive defaultExtra image options s = (Return colors, s).
Proof.
  intros Hlook Huse. unfold extractColors. now rewrite Huse, Hlook.
Qed.

(** While no caching call for [key] is in flight, the entry of [key] stays
    as it is, and no such call gets in flight. *)
Lemma cached_step key colors s o :
  colorCache s !! key = Some colors -> noneInFlight key s ->
  colorCache (step derive defaultExtra s o) !! key = Some colors /\
  noneInFlight key (step derive defaultExtra s o).
Proof.
  intros Hlook Hquiet. destruct o as [image options|n]; cbn [step].
  - unfold extractColors_call.
    destruct (default true (optUseCache options)) eqn:Huse.
    + destruct (colorCache s !! cacheKey image) as [cached|] eqn:Hkey; cbn [snd];
        [split; assumption|].
      split; [exact Hlook|]. intros call Hin Hcaching. cbn [suspended] in Hin.
      apply elem_of_app in Hin as [Hin|Hin]; [now apply Hquiet|].
      apply list_elem_of_singleton in Hin. subst call. cbn [suspKey].
      intros Heq. rewrite Heq in Hkey. congruence.
    + cbn [snd]. split; [exact Hlook|]. intros call Hin Hcaching. cbn [suspended] in Hin.
      apply elem_of_app in Hin as [Hin|Hin]; [now apply Hquiet|].
      apply list_elem_of_singleton in Hin. subst call. discriminate Hcaching.
  - unfold extractColors_resume.
    destruct (suspended s !! n) as [call|] eqn:Hn; cbn [snd]; [|split; assumption].
    assert (Hrest : noneInFlight key
              (mkExtractor (colorCache s) (delete n (suspended s)))).
    { intros c Hc. apply Hquiet. eapply list_elem_of_delete_inv. exact Hc. }
    destruct (suspAnalysis call) as [colors'|e]; cbn [snd]; [|split; [exact Hlook | exact Hrest]].
    split; [|exact Hrest]. cbn [colorCache].
    destruct (suspUseCache call) eqn:Hcaching; [|exact Hlook].
    rewrite lookup_insert_ne; [exact Hlook|].
    apply Hquiet; [eapply list_elem_of_lookup_2; exact Hn | exact Hcaching].
Qed.

Lemma cached_run key colors ops : forall s,
  colorCache s !! key = Some colors -> noneInFlight key s ->
  colorCache (run derive defaultExtra ops s) !! key = Some colors.
Proof.
  induction ops as [|o ops IH]; intros s Hlook Hquiet; [exact Hlook|].
  unfold run in *. cbn [fold_left].
  destruct (cached_step key colors s o Hlook Hquiet) as [Hlook' Hquiet'].
  now apply IH.
Qed.

Lemma extractColors_suspended image options s :
  suspended (extractColors derive defaultExtra image options s).2 = suspended s.
Proof.
  unfold extractColors.
  destruct (if default true (optUseCache options) then colorCache s !! cacheKey image else None);
    [reflexivity|].
  destruct (analyzeImage derive defaultExtra image _ _); reflexivity.
Qed.
End CacheHit.

(** X11: a palette that a caching call of [extractColors] has returned is
    what a caching call with the same key made right afterwards returns, at
    once and without changing the extractor -- whatever the image has
    become and whatever number of colours is asked for. If no caching call
    for that key was in flight during the first call, every later caching
    call with that key does the same, after any further calls and
    resumptions on any images. *)
Theorem extractColors_cache_hit {Extra : Type}
    (derive : num -> num -> num -> Extra) (defaultExtra : Extra)
    (image image' : Image) (options options' : Options)
    (s s' : @Extractor Extra) (colors : @Palette Extra) :
  extractColors derive defaultExtra image options s = (Return colors, s') ->
  default true (optUseCache options) = true ->
  default true (optUseCache options') = true ->
  cacheKey image' = cacheKey image ->
  extractColors derive defaultExtra image' options' s' = (Return colors, s') /\
  (noneInFlight (cacheKey image) s ->
   forall later : list Op,
     extractColors derive defaultExtra image' options' (run derive defaultExtra later s')
     = (Return colors, run derive defaultExtra later s')).
Proof.
  intros Hcall Huse Huse' Hkey.
  pose proof (extractColors_cached derive defaultExtra _ _ _ _ _ Hcall Huse) as Hlook.
  split.
  - apply extractColors_hit; [|exact Huse']. rewrite Hkey. exact Hlook.
  - intros Hquiet later. apply extractColors_hit; [|exact Huse']. rewrite Hkey.
    apply cached_run; [exact Hlook|].
    intros call Hin. apply Hquiet.
    rewrite <- (extractColors_suspended derive defaultExtra image options s), Hcall. exact Hin.
Qed.

(** ** Navigation between the images *)
Section Navigation.
Import Controls.
Context {Record_ Mesh : Type}.

Lemma remainder_index i d n :
  0 < n -> 0 <= i < n -> - n <= d ->
  remainder (plus (plus (Num i) d) n) n = Num ((i + d) mod n).
Proof.
  intros Hn Hi Hd. unfold remainder, plus.
  destruct (Z.eqb_spec n 0); [lia|]. f_equal.
  rewrite Z.rem_mod_nonneg by lia.
  replace (i + d + n) with (i + d + 1 * n) by lia. apply Z_mod_plus_full.
Qed.

Lemma at_index_mod {A : Type} (l : list A) x :
  0 <= x < Z.of_nat (length l) -> is_Some (at_index l (Num x)).
Proof.
  intros Hx. unfold at_index. destruct (Z.ltb_spec x 0); [lia|].
  apply lookup_lt_is_Some_2. lia.
Qed.

Lemma at_index_inside {A : Type} (l : list A) i a :
  at_index l i = Some a -> exists x, i = Num x /\ 0 <= x < Z.of_nat (length l).
Proof.
  destruct i as [x|]; [|discriminate]. unfold at_index.
  destruct (Z.ltb_spec x 0); [discriminate|]. intros Hl.
  apply lookup_lt_Some in Hl. exists x. split; [reflexivity | lia].
Qed.

(** When a mesh is found at the new index, the index is a proper index of
    [this.images] as well. *)
Lemma navigate_no_throw direction (g : @Gallery Record_ Mesh) :
  forall e, (navigateImages direction g).2 <> Throw e.
Proof.
  intros e. unfold navigateImages. cbn [snd].
  set (n := Z.of_nat (length (images g))).
  set (index := remainder (plus (plus (currentImageIndex g) direction) n) n).
  destruct (at_index (meshes g) index) as [mesh|] eqn:Hmesh; [|discriminate].
  destruct (at_index (images g) index) as [record|] eqn:Hrec; [discriminate|].
  exfalso. destruct (at_index_inside _ _ _ Hmesh) as (x & Hx & Hx0 & _).
  assert (Hlt : x < n).
  { subst index. unfold remainder in Hx.
    destruct (plus (plus (currentImageIndex g) direction) n) as [y|]; [|discriminate].
    destruct (Z.eqb_spec n 0); [discriminate|]. injection Hx as <-.
    assert (0 < n) by (subst n; lia).
    destruct (Z_lt_dec y 0) as [Hneg|Hpos].
    - pose proof (Z.rem_nonpos y n ltac:(lia) ltac:(lia)). lia.
    - pose proof (Z.rem_bound_pos y n ltac:(lia) ltac:(lia)). lia. }
  rewrite Hx in Hrec.
  destruct (at_index_mod (images g) x ltac:(fold n; lia)) as [r Hr]. congruence.
Qed.
End Navigation.

(** X12: with [n > 0] images and the current index within them,
    [navigateImages] moves the index by [direction] modulo [n] (for any
    [direction >= -n]), so the index stays within the images, and a step
    followed by the opposite step comes back to the same index. *)
Theorem navigateImages_wraps {Record_ Mesh : Type} (g : @Controls.Gallery Record_ Mesh)
    (i direction : Z) :
  Controls.currentImageIndex g = Num i ->
  0 <= i < Z.of_nat (length (Controls.images g)) ->
  - Z.of_nat (length (Controls.images g)) <= direction <= Z.of_nat (length (Controls.images g)) ->
  let g' := (Controls.navigateImages direction g).1 in
  Controls.currentImageIndex g'
  = Num ((i + direction) mod Z.of_nat (length (Controls.images g))) /\
  0 <= (i + direction) mod Z.of_nat (length (Controls.images g))
    < Z.of_nat (length (Controls.images g)) /\
  Controls.currentImageIndex (Controls.navigateImages (- direction) g').1 = Num i.
Proof.
  intros Hcur Hi Hd g'. subst g'. unfold Controls.navigateImages. cbn [fst Controls.currentImageIndex Controls.images].
  set (n := Z.of_nat (length (Controls.images g))) in *.
  assert (Hn : 0 < n) by lia.
  pose proof (Z.mod_pos_bound (i + direction) n Hn) as Hm.
  rewrite Hcur, remainder_index by lia.
  split; [reflexivity|]. split; [exact Hm|].
  rewrite remainder_index by lia. f_equal.
  rewrite Zplus_mod_idemp_l. replace (i + direction + - direction) with i by lia.
  apply Z.mod_small. lia.
Qed.

(** X13: [navigateImages] never raises: whenever it finds a mesh at the new
    index it finds the record at that index as well. Without images, or once
    the index is [NaN], the index is [NaN] afterwards and nothing moves. *)
Theorem navigateImages_safe {Record_ Mesh : Type} (g : @Controls.Gallery Record_ Mesh)
    (direction : Z) :
  (forall e, (Controls.navigateImages direction g).2 <> Throw e) /\
  (Controls.images g = [] \/ Controls.currentImageIndex g = NaN ->
   Controls.currentImageIndex (Controls.navigateImages direction g).1 = NaN /\
   (Controls.navigateImages direction g).2 = Return None).
Proof.
  split; [apply navigate_no_throw|].
  intros [Hempty|Hnan]; unfold Controls.navigateImages; cbn [fst snd Controls.currentImageIndex].
  - rewrite Hempty. cbn [length]. change (Z.of_nat 0) with 0.
    destruct (Controls.plus (Controls.plus (Controls.currentImageIndex g) direction) 0);
      split; reflexivity.
  - rewrite Hnan. split; reflexivity.
Qed.

(** ** Morphing to the next image *)
Section Morph.
Import Controls.

Lemma findIndexFrom_spec imageData images : forall i,
  ((imageData ∉ images) /\ findIndexFrom i imageData images = -1) \/
  (exists k : nat, images !! k = Some imageData /\
     findIndexFrom i imageData images = i + Z.of_nat k).
Proof.
  induction images as [|img rest IH]; intros i; cbn [findIndexFrom].
  - left. split; [apply not_elem_of_nil | reflexivity].
  - destruct (decide (img = imageData)) as [->|Hne].
    + right. exists 0%nat. split; [reflexivity | lia].
    + destruct (IH (i + 1)) as [[Hnot Heq]|(k & Hk & Heq)].
      * left. split; [|exact Heq]. rewrite not_elem_of_cons. split; [congruence | exact Hnot].
      * right. exists (S k). split; [exact Hk | lia].
Qed.

Lemma morph_cases {Mesh : Type} imageData images (meshes : list Mesh) :
  ((imageData ∉ images) -> morphToNext imageData images meshes = None) /\
  (forall currentMesh nextMesh,
     morphToNext imageData images meshes = Some (currentMesh, nextMesh) ->
     exists i : nat, images !! i = Some imageData /\
       meshes !! i = Some currentMesh /\
       meshes !! ((i + 1) mod length images)%nat = Some nextMesh).
Proof.
  unfold morphToNext, findIndex.
  destruct (findIndexFrom_spec imageData images 0) as [[Hnot ->]|(k & Hk & ->)].
  - split; [reflexivity|]. intros c m. cbn [at_index]. discriminate.
  - split; [intros Hnot; exfalso; apply Hnot; eapply list_elem_of_lookup_2; exact Hk|].
    intros c m. pose proof (lookup_lt_Some _ _ _ Hk) as Hlt.
    unfold remainder. destruct (Z.eqb_spec (Z.of_nat (length images)) 0); [lia|].
    rewrite Z.rem_mod_nonneg by lia.
    unfold at_index.
    destruct (Z.ltb_spec (0 + Z.of_nat k) 0); [lia|].
    destruct (Z.ltb_spec ((0 + Z.of_nat k + 1) mod Z.of_nat (length images)) 0) as [Hneg|_].
    { pose proof (Z.mod_pos_bound (0 + Z.of_nat k + 1) (Z.of_nat (length images))). lia. }
    replace (Z.to_nat (0 + Z.of_nat k)) with k by lia.
    replace (Z.to_nat ((0 + Z.of_nat k + 1) mod Z.of_nat (length images)))
      with ((k + 1) mod length images)%nat
      by (rewrite <- (Nat2Z.id ((k + 1) mod length images));
          f_equal; rewrite Nat2Z.inj_mod; f_equal; lia).
    destruct (meshes !! k) as [c'|] eqn:Hc; [|discriminate].
    destruct (meshes !! ((k + 1) mod length images)%nat) as [m'|] eqn:Hm; [|discriminate].
    intros [= <- <-]. exists k. auto.
Qed.
End Morph.

(** X14: [morphToNext] morphs only an image of the gallery, and then from
    the mesh of that image to the mesh of the image that follows it, the
    first image following the last one. For an image that is not in the
    gallery nothing is morphed. *)
Theorem morphToNext_successor {Mesh : Type} (imageData : nat) (images : list nat)
    (meshes : list Mesh) :
  ((imageData ∉ images) -> Controls.morphToNext imageData images meshes = None) /\
  (forall currentMesh nextMesh,
     Controls.morphToNext imageData images meshes = Some (currentMesh, nextMesh) ->
     exists i : nat, images !! i = Some imageData /\
       meshes !! i = Some currentMesh /\
       meshes !! ((i + 1) mod length images)%nat = Some nextMesh).
Proof. apply morph_cases. Qed.

(** ** Autoplay *)
Section AutoplayInvariant.
Import Controls.




End AutoplayInvariant.


(** ** Keyboard navigation between the containers *)
Section KeyNav.
Import Controls Timing.





End KeyNav.



(** ** [throttle] *)
Section ThrottleSpacing.
Import Timing.
Context {A : Type} (limit : Z).





End ThrottleSpacing.


(** ** [debounce] *)
Section DebounceTrailing.
Import Timing.
Context {A : Type} (wait : Z).

Lemma lastCall_app (l1 l2 : list (@Event A)) : forall now seen,
  lastCall now (l1 ++ l2) seen = lastCall (now + elapsedTime l1) l2 (lastCall now l1 seen).
Proof.
  induction l1 as [|e l1 IH]; intros now seen; cbn [app lastCall elapsedTime fold_right].
  - now rewrite Z.add_0_r.
  - destruct e as [args|ms|id]; rewrite IH; fold (elapsedTime l1); f_equal; lia.
Qed.

Lemma elapsedTime_app (l1 l2 : list (@Event A)) :
  elapsedTime (l1 ++ l2) = elapsedTime l1 + elapsedTime l2.
Proof.
  induction l1 as [|e l1 IH]; [reflexivity|].
  cbn [app elapsedTime fold_right]. fold (elapsedTime (l1 ++ l2)). fold (elapsedTime l1).
  destruct e; lia.
Qed.

Lemma callArgs_snoc (events : list (@Event A)) e :
  callArgs (events ++ [e]) = callArgs events ++ match e with Call args => [args] | _ => [] end.
Proof. unfold callArgs. rewrite omap_app. destruct e; reflexivity. Qed.

Lemma clearTimer_nil id : clearTimer id ([] : list (@Timer A)) = [].
Proof. destruct id; reflexivity. Qed.

Lemma clearTimer_own (t : @Timer A) : clearTimer (Some (timerId t)) [t] = [].
Proof.
  cbn [clearTimer]. rewrite filter_cons, decide_False by (intros H; now apply H). reflexivity.
Qed.

Lemma settled_new : settled wait [] (@newDebounced A).
Proof. split; [reflexivity | constructor]. Qed.

(** One event keeps the invariant, and runs [func] only for the last call,
    once the delay has passed since that call. *)
Lemma settled_handle events (d : @Debounced A) e :
  settled wait events d ->
  settled wait (events ++ [e]) (handle wait d e) /\
  (called (handle wait d e) = called d \/
   exists t0 args, lastCall 0 events None = Some (t0, args) /\
     t0 + Z.max 0 wait <= time d /\
     called (handle wait d e) = called d ++ [(time d, args)]).
Proof.
  intros [Htime Hts]. unfold settled.
  rewrite elapsedTime_app, lastCall_app, callArgs_snoc, Z.add_0_l.
  destruct e as [args|ms|id]; cbn [handle].
  - split; [|left; reflexivity]. unfold invoke. cbn [time timers timeout called].
    cbn [elapsedTime fold_right]. split; [lia|].
    assert (Hclear : clearTimer (timeout d) (timers d) = [] /\
                     map snd (called d) `sublist_of` callArgs events).
    { destruct (timers d) as [|t [|t' ts]]; [| |contradiction].
      - split; [apply clearTimer_nil | exact Hts].
      - destruct Hts as (Hid & t0 & pre & _ & _ & Hargs & Hsub).
        rewrite Hid. split; [apply clearTimer_own|].
        rewrite Hargs. now apply sublist_inserts_r. }
    destruct Hclear as [-> Hsub]. cbn [app timerId timerArgs timerDue lastCall].
    split; [reflexivity|]. exists (elapsedTime events), (callArgs events).
    repeat split; [congruence | exact Hsub].
  - split; [|left; reflexivity]. cbn [time timers timeout called elapsedTime fold_right lastCall].
    rewrite app_nil_r. split; [lia | exact Hts].
  - cbn [elapsedTime fold_right lastCall]. rewrite app_nil_r, Z.add_0_r.
    destruct (timers d) as [|t [|t' ts]] eqn:Htimers; [| |contradiction].
    + cbn [find]. split; [|left; reflexivity]. rewrite Htimers. split; assumption.
    + cbn [find]. destruct (Nat.eqb (timerId t) id);
        [|split; [rewrite Htimers; split; assumption | left; reflexivity]].
      destruct (bool_decide (timerDue t <= time d)) eqn:Hdue;
        [|split; [rewrite Htimers; split; assumption | left; reflexivity]].
      apply bool_decide_eq_true_1 in Hdue.
      destruct Hts as (Hid & t0 & pre & Hlast & Hat & Hargs & Hsub).
      unfold later. cbn [time timers timeout called]. rewrite Htimers.
      rewrite filter_cons, decide_False by (intros H; now apply H).
      rewrite filter_nil, clearTimer_nil. split.
      * split; [exact Htime|]. rewrite Hargs, map_app. cbn [map snd].
        apply sublist_app; [exact Hsub | reflexivity].
      * right. exists t0, (timerArgs t). rewrite <- Hat. auto.
Qed.

Lemma settled_debounced (events : list (@Event A)) : settled wait events (debounced wait events).
Proof.
  induction events as [|e events IH] using rev_ind; [apply settled_new|].
  unfold debounced in *. rewrite fold_left_app. cbn [fold_left].
  apply settled_handle, IH.
Qed.

Lemma debounced_fires (events : list (@Event A)) args ms :
  Z.max 0 wait <= Z.of_N ms ->
  let d := debounced wait (events ++ [Call args; Elapse ms]) in
  exists id, timeout d = Some id /\
    called (handle wait d (Fire id)) = called d ++ [(time d, args)] /\
    timers (handle wait d (Fire id)) = [].
Proof.
  intros Hms d. subst d. unfold debounced. rewrite fold_left_app. cbn [fold_left].
  fold (debounced wait events).
  pose proof (settled_debounced events) as [_ Hts].
  set (d0 := debounced wait events) in *.
  assert (Hclear : clearTimer (timeout d0) (timers d0) = []).
  { destruct (timers d0) as [|t [|t' ts]]; [| |contradiction].
    - apply clearTimer_nil.
    - destruct Hts as (-> & _). apply clearTimer_own. }
  exists (nextId d0). cbn [handle invoke time timers timeout called nextId].
  rewrite Hclear. cbn [app find timerId]. rewrite Nat.eqb_refl. cbn [timerDue].
  rewrite bool_decide_eq_true_2 by lia.
  unfold later. cbn [time timers timeout called timerId timerArgs].
  rewrite filter_cons, decide_False by (intros H; now apply H).
  rewrite filter_nil. repeat split.
Qed.
End DebounceTrailing.

(** X19: whatever sequence of calls, waiting and firing timers a debounced
    function has seen, the next event either does not run [func], or runs
    it with the arguments of the most recent call, and no sooner than
    [wait] milliseconds after that call. *)
Theorem debounce_trailing {A : Type} (wait : Z) (events : list (@Timing.Event A))
    (e : @Timing.Event A) :
  let d := Timing.debounced wait events in
  Timing.called (Timing.handle wait d e) = Timing.called d \/
  exists t0 args, Timing.lastCall 0 events None = Some (t0, args) /\
    t0 + Z.max 0 wait <= Timing.time d /\
    Timing.called (Timing.handle wait d e) = Timing.called d ++ [(Timing.time d, args)].
Proof. intros d. apply (settled_handle wait events d e), settled_debounced. Qed.

(** X20: a debounced function never has more than one timer pending, and
    it runs [func] at most once per call: the arguments [func] was run with
    are some of the arguments of the calls, in their order. *)
Theorem debounce_at_most_once {A : Type} (wait : Z) (events : list (@Timing.Event A)) :
  (length (Timing.timers (Timing.debounced wait events)) <= 1)%nat /\
  map snd (Timing.called (Timing.debounced wait events)) `sublist_of` Timing.callArgs events.
Proof.
  destruct (settled_debounced wait events) as [_ Hts].
  destruct (Timing.timers (Timing.debounced wait events)) as [|t [|t' ts]]; [| |contradiction].
  - split; [cbn; lia | exact Hts].
  - split; [cbn; lia|]. destruct Hts as (_ & t0 & pre & _ & _ & -> & Hsub).
    now apply sublist_inserts_r.
Qed.

(** X21: after any history, a call followed by at least [wait]
    milliseconds without a call leaves one timer, the one in [timeout], and
    when it fires [func] runs with the arguments of that call and no timer
    stays behind. *)
Theorem debounce_fires {A : Type} (wait : Z) (events : list (@Timing.Event A))
    (args : A) (ms : N) :
  Z.max 0 wait <= Z.of_N ms ->
  let d := Timing.debounced wait (events ++ [Timing.Call args; Timing.Elapse ms]) in
  exists id, Timing.timeout d = Some id /\
    Timing.called (Timing.handle wait d (Timing.Fire id))
    = Timing.called d ++ [(Timing.time d, args)] /\
    Timing.timers (Timing.handle wait d (Timing.Fire id)) = [].
Proof. apply debounced_fires. Qed.

(** ** Closing the lightboxes *)
Section Closing.
Import Overlays OverlayRuns.

Lemma close_all handlers : forall doc,
  timers (fold_left (fun d o => close o d) handlers doc) = timers doc ++ handlers /\
  escHandlers (fold_left (fun d o => close o d) handlers doc) = escHandlers doc.
Proof.
  induction handlers as [|o handlers IH]; intros doc; cbn [fold_left].
  - now rewrite app_nil_r.
  - destruct (IH (close o doc)) as [-> ->]. cbn [close timers escHandlers].
    now rewrite <- app_assoc.
Qed.

Lemma elem_of_delete_other (l : list nat) n o x :
  l !! n = Some o -> x ∈ l -> x <> o -> x ∈ delete n l.
Proof.
  revert n. induction l as [|y l IH]; intros n Hn Hx Hne; [now apply elem_of_nil in Hx|].
  destruct n as [|n]; cbn in Hn |- *.
  - injection Hn as ->. apply elem_of_cons in Hx as [->|Hx]; [contradiction | exact Hx].
  - apply elem_of_cons in Hx as [->|Hx]; [left | right; now apply (IH n)].
Qed.

Lemma accounted_interact doc i :
  i <> ClickImage -> accounted doc -> accounted (interact doc i).
Proof.
  intros Hi Hacc. destruct i as [hasImg| |o| |n]; [| contradiction | | |]; cbn [interact].
  - destruct hasImg; [|exact Hacc]. intros o Ho. cbn [openLightbox body escHandlers timers] in *.
    apply elem_of_app in Ho as [Ho|Ho].
    + destruct (Hacc o Ho) as [H|H]; [left; apply elem_of_app; now left | now right].
    + left. apply elem_of_app. now right.
  - destruct (decide (o ∈ body doc)); [|exact Hacc].
    intros x Hx. cbn [close body escHandlers timers] in *.
    destruct (Hacc x Hx) as [H|H]; [now left | right; apply elem_of_app; now left].
  - intros x Hx. cbn [body escHandlers timers] in *.
    rewrite close_all_body in Hx. destruct (close_all (escHandlers doc) doc) as [-> _].
    right. apply elem_of_app. destruct (Hacc x Hx) as [H|H]; [now right | now left].
  - destruct (timers doc !! n) as [o|] eqn:Hn; [|exact Hacc].
    intros x Hx. cbn [removeOverlay body escHandlers timers] in *.
    apply list_elem_of_filter in Hx as [Hne Hx].
    destruct (Hacc x Hx) as [H|H]; [now left | right].
    now apply (elem_of_delete_other _ _ o).
Qed.

Lemma accounted_run acts : forall doc,
  ClickImage ∉ acts -> accounted doc -> accounted (fold_left interact acts doc).
Proof.
  induction acts as [|i acts IH]; intros doc Hno Hacc; [exact Hacc|].
  apply not_elem_of_cons in Hno as [Hi Hno]. cbn [fold_left].
  apply IH; [exact Hno|]. apply accounted_interact; [congruence | exact Hacc].
Qed.

Lemma drain_clears k : forall doc,
  length (timers doc) = k ->
  (forall o, o ∈ body doc -> o ∈ timers doc) ->
  body (fold_left interact (replicate k (TimerFires 0)) doc) = [].
Proof.
  induction k as [|k IH]; intros doc Hlen Hsub.
  - apply length_zero_iff_nil in Hlen. rewrite Hlen in Hsub. cbn [replicate fold_left].
    destruct (body doc) as [|o rest]; [reflexivity|].
    exfalso. eapply elem_of_nil, Hsub. left.
  - destruct (timers doc) as [|o ts] eqn:Hts; [discriminate|].
    cbn [replicate fold_left interact]. rewrite Hts. cbn [lookup list_lookup].
    apply IH.
    + cbn [timers removeOverlay delete list_delete]. rewrite Hts. cbn in Hlen |- *. lia.
    + intros x Hx. cbn [body timers removeOverlay] in *. rewrite Hts.
      apply list_elem_of_filter in Hx as [Hne Hx].
      apply Hsub, elem_of_cons in Hx as [->|Hx]; [contradiction | exact Hx].
Qed.

Lemma escape_accounted doc :
  accounted doc ->
  escHandlers (interact doc KeyEscape) = [] /\
  forall o, o ∈ body (interact doc KeyEscape) -> o ∈ timers (interact doc KeyEscape).
Proof.
  intros Hacc. split; [reflexivity|]. intros o Ho.
  assert (Hno : KeyEscape <> ClickImage) by discriminate.
  destruct (accounted_interact doc KeyEscape Hno Hacc o Ho) as [H|H]; [|exact H].
  now apply elem_of_nil in H.
Qed.

Lemma handlers_kept acts : forall doc,
  KeyEscape ∉ acts ->
  length (escHandlers (fold_left interact acts doc))
  = (length (escHandlers doc) + lightboxesOpened acts)%nat.
Proof.
  induction acts as [|i acts IH]; intros doc Hno; [cbn; lia|].
  apply not_elem_of_cons in Hno as [Hi Hno]. cbn [fold_left]. rewrite IH by exact Hno.
  unfold lightboxesOpened. cbn [List.filter].
  destruct i as [[|]| |o| |n];
    cbn [opensLightbox interact openLightbox showImageDetails escHandlers length].
  - rewrite length_app. cbn [length]. lia.
  - reflexivity.
  - reflexivity.
  - destruct (decide (o ∈ body doc)); reflexivity.
  - contradiction.
  - destruct (timers doc !! n); reflexivity.
Qed.
End Closing.

(** X22: on a page whose overlays are all lightboxes, one Escape key
    closes every lightbox that is open: afterwards no lightbox listens for
    the key any more, every overlay still attached is scheduled for
    removal, and once the scheduled removals have run no overlay is left. *)
Theorem escape_closes_every_lightbox (acts : list Overlays.Interaction) :
  Overlays.ClickImage ∉ acts ->
  let doc := Overlays.interact (OverlayRuns.reached acts) Overlays.KeyEscape in
  Overlays.escHandlers doc = [] /\
  (forall o, o ∈ Overlays.body doc -> o ∈ Overlays.timers doc) /\
  Overlays.body (OverlayRuns.drain doc) = [].
Proof.
  intros Hno doc.
  assert (Hacc : OverlayRuns.accounted (OverlayRuns.reached acts)).
  { apply accounted_run; [exact Hno|]. intros o Ho. now apply elem_of_nil in Ho. }
  destruct (escape_accounted _ Hacc) as [Hesc Hsub]. fold doc in Hesc, Hsub.
  split; [exact Hesc|]. split; [exact Hsub|].
  apply drain_clears; [reflexivity | exact Hsub].
Qed.

(** X23: closing a lightbox with its button or its backdrop does not take
    its [keydown] listener away: as long as Escape is not pressed, the
    number of listeners is the number of lightboxes opened so far, whether
    they are still open or not. *)
Theorem lightbox_listeners_stay (acts : list Overlays.Interaction) :
  Overlays.KeyEscape ∉ acts ->
  length (Overlays.escHandlers (OverlayRuns.reached acts)) = OverlayRuns.lightboxesOpened acts.
Proof. intros Hno. unfold OverlayRuns.reached. now rewrite handlers_kept. Qed.

(** ** The marker classes *)
Section Markers.
Import LazyLoad.

Lemma loaded_classAdd x d e c :
  c ∈ classList d e -> c ∈ classList (classAdd "loaded" x d) e.
Proof.
  intros Hin. rewrite classList_classAdd. destruct (decide (x = e)) as [->|]; [|exact Hin].
  apply elem_of_union. now left.
Qed.

Lemma loaded_markLoaded x d e :
  "loaded" ∈ classList d e -> "loaded" ∈ classList (markLoaded x d) e.
Proof.
  intros Hin. unfold markLoaded. apply loaded_classAdd.
  rewrite classList_classRemove. destruct (decide (x = e)) as [->|]; [|exact Hin].
  apply elem_of_difference. split; [exact Hin|].
  intros H. apply elem_of_singleton in H. discriminate.
Qed.

Lemma markLoaded_marks x d :
  ("loaded" ∈ classList (markLoaded x d) x) /\ ("loading" ∉ classList (markLoaded x d) x).
Proof.
  unfold markLoaded. rewrite classList_classAdd, decide_True by reflexivity.
  rewrite classList_classRemove, decide_True by reflexivity. split.
  - apply elem_of_union. right. now apply elem_of_singleton.
  - intros H. apply elem_of_union in H as [H|H].
    + apply elem_of_difference in H as [_ H]. apply H. now apply elem_of_singleton.
    + apply elem_of_singleton in H. discriminate.
Qed.

Lemma markLoaded_no_loading x d e :
  "loading" ∉ classList d e -> "loading" ∉ classList (markLoaded x d) e.
Proof.
  intros Hno. destruct (decide (x = e)) as [->|Hne]; [apply markLoaded_marks|].
  now rewrite (proj1 (markLoaded_other x d e Hne)).
Qed.

Lemma loaded_fixImages items e : forall d,
  "loaded" ∈ classList d e -> "loaded" ∈ classList (fixImages items d) e.
Proof.
  induction items as [|item items IH]; intros d Hin; [exact Hin|].
  unfold fixImages in *. cbn [fold_left]. apply IH.
  destruct (itemImage item) as [[img dataSrc]|]; [destruct (hasDataSrc dataSrc)|];
    [exact Hin | | exact Hin].
  now apply loaded_markLoaded.
Qed.

Lemma loaded_observerCallback entries e : forall d,
  "loaded" ∈ classList d e -> "loaded" ∈ classList (observerCallback entries d) e.
Proof.
  induction entries as [|entry entries IH]; intros d Hin; [exact Hin|].
  unfold observerCallback in *. cbn [fold_left]. apply IH.
  destruct (isIntersecting entry); [|exact Hin].
  change ("loaded" ∈ classList (classAdd "loaded" (target entry) d) e).
  now apply loaded_classAdd.
Qed.

Lemma loaded_handle page d ev e :
  "loaded" ∈ classList d e -> "loaded" ∈ classList (handle page d ev) e.
Proof.
  intros Hin. destruct ev as [| |entries|n]; cbn [handle].
  - unfold classList. destruct (observeAll_same (vincentImages page) d) as [-> _]. exact Hin.
  - now apply loaded_fixImages.
  - now apply loaded_observerCallback.
  - destruct (preloading d !! n) as [item|]; [|exact Hin]. now apply loaded_markLoaded.
Qed.

Lemma loaded_play page events e : forall d,
  "loaded" ∈ classList d e -> "loaded" ∈ classList (play page events d) e.
Proof.
  induction events as [|ev events IH]; intros d Hin; [exact Hin|].
  unfold play in *. cbn [fold_left]. apply IH, loaded_handle, Hin.
Qed.

Lemma unobserved_observerCallback entries e : forall d,
  e ∉ observed d -> e ∉ observed (observerCallback entries d).
Proof.
  induction entries as [|entry entries IH]; intros d Hno; [exact Hno|].
  unfold observerCallback in *. cbn [fold_left]. apply IH.
  destruct (isIntersecting entry); [|exact Hno].
  cbn [observed classAdd]. intros H. apply elem_of_difference in H as [H _]. contradiction.
Qed.

Lemma observerCallback_marks entries e : forall d,
  mkEntry e true ∈ entries ->
  ("loaded" ∈ classList (observerCallback entries d) e) /\
  (e ∉ observed (observerCallback entries d)).
Proof.
  induction entries as [|entry entries IH]; intros d Hin; [now apply elem_of_nil in Hin|].
  apply elem_of_cons in Hin as [<-|Hin].
  - unfold observerCallback. cbn [fold_left isIntersecting target]. split.
    + apply loaded_observerCallback.
      change ("loaded" ∈ classList (classAdd "loaded" e d) e).
      rewrite classList_classAdd, decide_True by reflexivity.
      apply elem_of_union. right. now apply elem_of_singleton.
    + apply unobserved_observerCallback. cbn [observed].
      intros H. apply elem_of_difference in H as [_ H]. apply H. now apply elem_of_singleton.
  - unfold observerCallback in *. cbn [fold_left]. now apply IH.
Qed.

Lemma no_loading_fixImages items e : forall d,
  "loading" ∉ classList d e -> "loading" ∉ classList (fixImages items d) e.
Proof.
  induction items as [|item items IH]; intros d Hno; [exact Hno|].
  unfold fixImages in *. cbn [fold_left]. apply IH.
  destruct (itemImage item) as [[img dataSrc]|]; [destruct (hasDataSrc dataSrc)|];
    [exact Hno | | exact Hno].
  now apply markLoaded_no_loading.
Qed.

Lemma preloading_fixImages items : forall d,
  preloading (fixImages items d)
  = preloading d ++ omap (fun item => match itemImage item with
                                     | Some (_, dataSrc) =>
                                         if hasDataSrc dataSrc then Some (itemElement item)
                                         else None
                                     | None => None
                                     end) items.
Proof.
  induction items as [|item items IH]; intros d; [cbn; now rewrite app_nil_r|].
  unfold fixImages in *. cbn [fold_left omap list_omap]. rewrite IH.
  destruct (itemImage item) as [[img dataSrc]|]; [destruct (hasDataSrc dataSrc)|];
    cbn [preloading markLoaded classAdd classRemove].
  - now rewrite <- app_assoc.
  - reflexivity.
  - reflexivity.
Qed.

Lemma fixImages_cons item items d :
  fixImages (item :: items) d
  = fixImages items (match itemImage item with
                     | None => d
                     | Some (_, dataSrc) =>
                         if hasDataSrc dataSrc
                         then mkDom (classes d) (observed d) (preloading d ++ [itemElement item])
                         else markLoaded (itemElement item) d
                     end).
Proof. reflexivity. Qed.

Lemma fixImages_marks items item img dataSrc : forall d,
  item ∈ items -> itemImage item = Some (img, dataSrc) -> hasDataSrc dataSrc = false ->
  ("loaded" ∈ classList (fixImages items d) (itemElement item)) /\
  ("loading" ∉ classList (fixImages items d) (itemElement item)).
Proof.
  induction items as [|item' items IH]; intros d Hin Himg Hsrc; [now apply elem_of_nil in Hin|].
  rewrite fixImages_cons. apply elem_of_cons in Hin as [<-|Hin].
  - rewrite Himg, Hsrc. split.
    + apply loaded_fixImages, markLoaded_marks.
    + apply no_loading_fixImages, markLoaded_marks.
  - now apply IH.
Qed.

Lemma omap_ext_item (items : list GalleryItem) :
  omap (fun item => match itemImage item with
                    | Some (_, dataSrc) =>
                        if hasDataSrc dataSrc then Some (itemElement item) else None
                    | None => None
                    end) items
  = omap (fun item => match itemImage item with
                      | Some (_, Some realSrc) =>
                          if String.eqb realSrc "" then None else Some (itemElement item)
                      | _ => None
                      end) items.
Proof.
  induction items as [|item items IH]; [reflexivity|].
  cbn [omap list_omap]. rewrite IH.
  destruct (itemImage item) as [[img [realSrc|]]|]; cbn [hasDataSrc]; [|reflexivity..].
  destruct (String.eqb realSrc ""); reflexivity.
Qed.

Lemma hasDataSrc_false dataSrc :
  hasDataSrc dataSrc = false <-> dataSrc = None \/ dataSrc = Some "".
Proof.
  destruct dataSrc as [realSrc|]; cbn [hasDataSrc].
  - rewrite negb_false_iff, String.eqb_eq. split; [intros ->; now right|].
    intros [H|H]; [discriminate | now injection H].
  - split; [now left | reflexivity].
Qed.
End Markers.

(** X24: no element ever loses the class [loaded]: whatever the observer,
    [fixImages] and the preloads do afterwards, an element that carries
    the class keeps it. *)
Theorem loaded_is_kept (page : LazyLoad.Page) (events : list LazyLoad.PageEvent)
    (d : LazyLoad.Dom) (e : nat) :
  "loaded" ∈ LazyLoad.classList d e ->
  "loaded" ∈ LazyLoad.classList (LazyLoad.play page events d) e.
Proof. apply loaded_play. Qed.

(** X25: after the observer's callback, every target that one of the
    entries reports as intersecting carries the class [loaded] and is no
    longer observed. *)
Theorem observerCallback_marks_targets (entries : list LazyLoad.Entry) (d : LazyLoad.Dom)
    (e : nat) :
  LazyLoad.mkEntry e true ∈ entries ->
  ("loaded" ∈ LazyLoad.classList (LazyLoad.observerCallback entries d) e) /\
  (e ∉ LazyLoad.observed (LazyLoad.observerCallback entries d)).
Proof. apply observerCallback_marks. Qed.

(** X26: [fixImages] tests the truthiness of [img.dataset.src]. Every
    gallery item whose image has no [data-src] attribute, or an empty one,
    carries [loaded] and not [loading] right after [fixImages], and no
    preload is started for it; the items whose image has a non-empty
    [data-src], and only they, wait for their preload, in page order; and
    when the preload of an item is done that item carries [loaded] and not
    [loading] and waits no more. *)
Theorem fixImages_marks_items (page : LazyLoad.Page) (items : list LazyLoad.GalleryItem)
    (d : LazyLoad.Dom) :
  (forall item img dataSrc,
     item ∈ items -> LazyLoad.itemImage item = Some (img, dataSrc) ->
     dataSrc = None \/ dataSrc = Some "" ->
     ("loaded" ∈ LazyLoad.classList (LazyLoad.fixImages items d) (LazyLoad.itemElement item)) /\
     ("loading" ∉ LazyLoad.classList (LazyLoad.fixImages items d) (LazyLoad.itemElement item))) /\
  LazyLoad.preloading (LazyLoad.fixImages items d)
  = LazyLoad.preloading d
    ++ omap (fun item => match LazyLoad.itemImage item with
                         | Some (_, Some realSrc) =>
                             if String.eqb realSrc "" then None
                             else Some (LazyLoad.itemElement item)
                         | _ => None
                         end) items /\
  (forall n item, LazyLoad.preloading d !! n = Some item ->
     ("loaded" ∈ LazyLoad.classList (LazyLoad.handle page d (LazyLoad.PreloadDone n)) item) /\
     ("loading" ∉ LazyLoad.classList (LazyLoad.handle page d (LazyLoad.PreloadDone n)) item) /\
     LazyLoad.preloading (LazyLoad.handle page d (LazyLoad.PreloadDone n))
     = delete n (LazyLoad.preloading d)).
Proof.
  split.
  { intros item img dataSrc Hin Himg Hsrc.
    apply (fixImages_marks items item img dataSrc); [exact Hin | exact Himg|].
    now apply hasDataSrc_false. }
  split.
  { rewrite preloading_fixImages. f_equal. apply omap_ext_item. }
  intros n item Hn. cbn [LazyLoad.handle]. rewrite Hn.
  split; [apply markLoaded_marks|]. split; [apply markLoaded_marks | reflexivity].
Qed.

(** X27: a touch that moves 50 pixels or less, or lasts 300 ms or more,
    changes nothing; a quick swipe to the right goes one image back and a
    quick swipe to the left one image on, both wrapping around, so two
    opposite swipes come back to the same image. Positions are in whole
    pixels. *)
Theorem handleGesture_swipes {Record_ Mesh : Type} (g : @Controls.Gallery Record_ Mesh)
    (i deltaX deltaTime : Z) :
  Controls.currentImageIndex g = Num i ->
  0 <= i < Z.of_nat (length (Controls.images g)) ->
  (Z.abs deltaX <= 50 \/ 300 <= deltaTime -> Controls.handleGesture deltaX deltaTime g = g) /\
  (50 < deltaX -> deltaTime < 300 ->
   Controls.currentImageIndex (Controls.handleGesture deltaX deltaTime g)
   = Num ((i - 1) mod Z.of_nat (length (Controls.images g))) /\
   Controls.currentImageIndex
     (Controls.handleGesture (- deltaX) deltaTime (Controls.handleGesture deltaX deltaTime g))
   = Num i) /\
  (deltaX < - 50 -> deltaTime < 300 ->
   Controls.currentImageIndex (Controls.handleGesture deltaX deltaTime g)
   = Num ((i + 1) mod Z.of_nat (length (Controls.images g)))).
Proof.
  intros Hcur Hi. set (n := Z.of_nat (length (Controls.images g))) in *.
  assert (Hback : Controls.currentImageIndex (Controls.navigateImages (-1) g).1
                  = Num ((i - 1) mod n)).
  { unfold Controls.navigateImages. cbn [fst Controls.currentImageIndex]. fold n.
    rewrite Hcur, remainder_index by lia. reflexivity. }
  assert (Hon : forall (g' : @Controls.Gallery Record_ Mesh) j,
            Controls.images g' = Controls.images g ->
            Controls.currentImageIndex g' = Num j -> 0 <= j < n ->
            Controls.currentImageIndex (Controls.navigateImages 1 g').1 = Num ((j + 1) mod n)).
  { intros g' j Himg Hj Hjn. unfold Controls.navigateImages.
    cbn [fst Controls.currentImageIndex]. rewrite Himg. fold n.
    rewrite Hj, remainder_index by lia. reflexivity. }
  unfold Controls.handleGesture. split; [|split].
  - intros Hstill.
    destruct (Z.gtb_spec (Z.abs deltaX) 50) as [Hfar|_]; [|reflexivity].
    destruct (Z.ltb_spec deltaTime 300) as [Hquick|_]; [lia | reflexivity].
  - intros Hfar Hquick.
    destruct (Z.gtb_spec (Z.abs deltaX) 50); [|lia].
    destruct (Z.gtb_spec (Z.abs (- deltaX)) 50); [|lia].
    destruct (Z.ltb_spec deltaTime 300); [|lia].
    destruct (Z.gtb_spec deltaX 0); [|lia].
    destruct (Z.gtb_spec (- deltaX) 0); [lia|].
    cbn [andb]. split; [exact Hback|].
    rewrite (Hon (Controls.navigateImages (-1) g).1 ((i - 1) mod n) eq_refl Hback)
      by (apply Z.mod_pos_bound; lia).
    f_equal. rewrite Zplus_mod_idemp_l. replace (i - 1 + 1) with i by lia.
    apply Z.mod_small. exact Hi.
  - intros Hfar Hquick.
    destruct (Z.gtb_spec (Z.abs deltaX) 50); [|lia].
    destruct (Z.ltb_spec deltaTime 300); [|lia].
    destruct (Z.gtb_spec deltaX 0); [lia|].
    cbn [andb]. apply (Hon g i eq_refl Hcur Hi).
Qed.

(** ** Instances of the further properties *)

(** X1 at the entry of the green bucket of a sample of five pixels. *)
Lemma getHistogram_entries_witness :
  (mkItem (mkPixel 0 90 0) 3 [mkPixel 0 90 0; mkPixel 0 90 0; mkPixel 0 90 0]
   ∈ getHistogram
       [mkPixel 100 0 0; mkPixel 0 0 0; mkPixel 0 90 0; mkPixel 0 90 0; mkPixel 0 90 0]) /\
  count (mkItem (mkPixel 0 90 0) 3 [mkPixel 0 90 0; mkPixel 0 90 0; mkPixel 0 90 0]) = 3.
Proof.
  assert (H : mkItem (mkPixel 0 90 0) 3 [mkPixel 0 90 0; mkPixel 0 90 0; mkPixel 0 90 0]
              ∈ getHistogram
                  [mkPixel 100 0 0; mkPixel 0 0 0; mkPixel 0 90 0; mkPixel 0 90 0; mkPixel 0 90 0]).
  { let h := eval vm_compute in
      (getHistogram
         [mkPixel 100 0 0; mkPixel 0 0 0; mkPixel 0 90 0; mkPixel 0 90 0; mkPixel 0 90 0]) in
    change (getHistogram
              [mkPixel 100 0 0; mkPixel 0 0 0; mkPixel 0 90 0; mkPixel 0 90 0; mkPixel 0 90 0])
      with h.
    repeat constructor. }
  split; [exact H|].
  destruct (getHistogram_entries _ _ H) as (_ & Hcount & _). rewrite Hcount. reflexivity.
Defined.

(** X3 at the box of the same sample. *)
Lemma getColorVolume_ranges_witness :
  boxPixels (getHistogram
    [mkPixel 100 0 0; mkPixel 0 0 0; mkPixel 0 90 0; mkPixel 0 90 0; mkPixel 0 90 0]) <> [] /\
  0 <= getColorVolume (getHistogram
    [mkPixel 100 0 0; mkPixel 0 0 0; mkPixel 0 90 0; mkPixel 0 90 0; mkPixel 0 90 0]).
Proof.
  assert (H : boxPixels (getHistogram
    [mkPixel 100 0 0; mkPixel 0 0 0; mkPixel 0 90 0; mkPixel 0 90 0; mkPixel 0 90 0]) <> [])
    by (vm_compute; discriminate).
  split; [exact H|].
  refine (proj2 (proj2 (getColorVolume_ranges _ H _))).
  vm_compute. repeat constructor; discriminate.
Defined.

(** X5 at the same sample, for two colours. *)
Lemma medianCut_conserves_witness :
  2 < Z.of_nat (length (getHistogram
    [mkPixel 100 0 0; mkPixel 0 0 0; mkPixel 0 90 0; mkPixel 0 90 0; mkPixel 0 90 0])) /\
  exists boxes,
    medianCut [mkPixel 100 0 0; mkPixel 0 0 0; mkPixel 0 90 0; mkPixel 0 90 0; mkPixel 0 90 0] 2
    = map getAverageColor boxes /\
    concat (map boxPixels boxes)
    ≡ₚ [mkPixel 100 0 0; mkPixel 0 0 0; mkPixel 0 90 0; mkPixel 0 90 0; mkPixel 0 90 0].
Proof.
  assert (H : 2 < Z.of_nat (length (getHistogram
    [mkPixel 100 0 0; mkPixel 0 0 0; mkPixel 0 90 0; mkPixel 0 90 0; mkPixel 0 90 0])))
    by (vm_compute; reflexivity).
  split; [exact H | exact (medianCut_conserves _ 2 H)].
Defined.

(** X6 at the same sample. *)
Lemma medianCut_in_gamut_witness :
  Forall Gamut.inGamut
    [mkPixel 100 0 0; mkPixel 0 0 0; mkPixel 0 90 0; mkPixel 0 90 0; mkPixel 0 90 0] /\
  Forall Gamut.byteOrNaN
    (medianCut [mkPixel 100 0 0; mkPixel 0 0 0; mkPixel 0 90 0; mkPixel 0 90 0; mkPixel 0 90 0] 2).
Proof.
  assert (H : Forall Gamut.inGamut
    [mkPixel 100 0 0; mkPixel 0 0 0; mkPixel 0 90 0; mkPixel 0 90 0; mkPixel 0 90 0])
    by (repeat constructor; cbn; lia).
  split; [exact H | exact (medianCut_in_gamut _ 2 H)].
Defined.

(** X11 for two images with the same address, the first one without a
    texture image. *)
Lemma extractColors_cache_hit_witness :
  extractColors (fun _ _ _ => tt) tt
    (mkImage (Some "a.png") None (Some None) Raises) (mkOptions None None None)
    newExtractor
  = (Return (getDefaultPalette tt),
     mkExtractor {[ Some "a.png" := getDefaultPalette tt ]} []) /\
  noneInFlight (Some "a.png") (@newExtractor unit) /\
  extractColors (fun _ _ _ => tt) tt
    (mkImage (Some "a.png") (Some "u") None (PixelData [])) (mkOptions (Some 3) None (Some true))
    (run (fun _ _ _ => tt) tt
       [Call (imgElement "b.png" Raises) (mkOptions None None None);
        Call (imgElement "a.png" Raises) (mkOptions None None (Some false));
        Resume 1; Resume 0]
       (mkExtractor {[ Some "a.png" := getDefaultPalette tt ]} []))
  = (Return (getDefaultPalette tt),
     run (fun _ _ _ => tt) tt
       [Call (imgElement "b.png" Raises) (mkOptions None None None);
        Call (imgElement "a.png" Raises) (mkOptions None None (Some false));
        Resume 1; Resume 0]
       (mkExtractor {[ Some "a.png" := getDefaultPalette tt ]} [])).
Proof.
  assert (H : extractColors (fun _ _ _ => tt) tt
    (mkImage (Some "a.png") None (Some None) Raises) (mkOptions None None None)
    newExtractor
  = (Return (getDefaultPalette tt),
     mkExtractor {[ Some "a.png" := getDefaultPalette tt ]} []))
    by (vm_compute; reflexivity).
  assert (Hquiet : noneInFlight (Some "a.png") (@newExtractor unit))
    by (intros call Hin; now apply elem_of_nil in Hin).
  split; [exact H|]. split; [exact Hquiet|].
  refine (proj2 (extractColors_cache_hit (fun _ _ _ => tt) tt
                   (mkImage (Some "a.png") None (Some None) Raises) _
                   (mkOptions None None None) _ _ _ _ H _ _ _) Hquiet _); reflexivity.
Defined.

(** X12 at the last of three images, one step on. *)
Lemma navigateImages_wraps_witness :
  Controls.currentImageIndex
    (Controls.navigateImages 1 (Controls.mkGallery (Num 2) [tt; tt; tt] [tt; tt; tt])).1
  = Num 0.
Proof.
  refine (proj1 (navigateImages_wraps
            (Controls.mkGallery (Num 2) [tt; tt; tt] [tt; tt; tt]) 2 1 eq_refl _ _));
    cbn; lia.
Defined.



(** X21 at two key presses, 100 ms after the second. *)
Lemma debounce_fires_witness :
  Z.max 0 100 <= Z.of_N 100 /\
  exists id,
    Timing.timeout
      (Timing.debounced 100
         ([Timing.Call "ArrowLeft"] ++ [Timing.Call "ArrowRight"; Timing.Elapse 100]))
    = Some id /\
    Timing.called
      (Timing.handle 100
         (Timing.debounced 100
            ([Timing.Call "ArrowLeft"] ++ [Timing.Call "ArrowRight"; Timing.Elapse 100]))
         (Timing.Fire id))
    = [(100, "ArrowRight")].
Proof.
  assert (H : Z.max 0 100 <= Z.of_N 100) by (cbn; lia).
  split; [exact H|].
  destruct (debounce_fires 100 [Timing.Call "ArrowLeft"] "ArrowRight" 100 H)
    as (id & Hid & Hcalled & _).
  exists id. split; [exact Hid | exact Hcalled].
Defined.

(** X22 with two lightboxes open. *)
Lemma escape_closes_every_lightbox_witness :
  (Overlays.ClickImage ∉ [Overlays.ClickItem true; Overlays.ClickItem true]) /\
  Overlays.body
    (OverlayRuns.drain
       (Overlays.interact
          (OverlayRuns.reached [Overlays.ClickItem true; Overlays.ClickItem true])
          Overlays.KeyEscape)) = [].
Proof.
  assert (H : Overlays.ClickImage ∉ [Overlays.ClickItem true; Overlays.ClickItem true]).
  { intros Hin. repeat (apply elem_of_cons in Hin as [Hin|Hin]; [discriminate|]).
    now apply elem_of_nil in Hin. }
  split; [exact H|].
  exact (proj2 (proj2 (escape_closes_every_lightbox _ H))).
Defined.

(** X23 for a lightbox that was opened, closed with its button and
    removed. *)
Lemma lightbox_listeners_stay_witness :
  (Overlays.KeyEscape
   ∉ [Overlays.ClickItem true; Overlays.ClickClose 0; Overlays.TimerFires 0]) /\
  Overlays.body
    (OverlayRuns.reached
       [Overlays.ClickItem true; Overlays.ClickClose 0; Overlays.TimerFires 0]) = [] /\
  length (Overlays.escHandlers
            (OverlayRuns.reached
               [Overlays.ClickItem true; Overlays.ClickClose 0; Overlays.TimerFires 0])) = 1%nat.
Proof.
  assert (H : Overlays.KeyEscape
              ∉ [Overlays.ClickItem true; Overlays.ClickClose 0; Overlays.TimerFires 0]).
  { intros Hin. repeat (apply elem_of_cons in Hin as [Hin|Hin]; [discriminate|]).
    now apply elem_of_nil in Hin. }
  split; [exact H|]. split; [vm_compute; reflexivity|].
  exact (lightbox_listeners_stay _ H).
Defined.

(** X24 for a marked item, through [fixImages] and a report of the
    observer. *)
Lemma loaded_is_kept_witness :
  ("loaded" ∈ LazyLoad.classList (LazyLoad.mkDom {[ 0%nat := {[ "loaded" ]} ]} ∅ []) 0%nat) /\
  ("loaded" ∈ LazyLoad.classList
     (LazyLoad.play
        (LazyLoad.mkPage {[1%nat]} [1%nat] [LazyLoad.mkGalleryItem 0 (Some (1%nat, None))])
        [LazyLoad.StartSimpleGallery; LazyLoad.Intersections [LazyLoad.mkEntry 0 false]]
        (LazyLoad.mkDom {[ 0%nat := {[ "loaded" ]} ]} ∅ [])) 0%nat).
Proof.
  assert (H : "loaded" ∈ LazyLoad.classList
                (LazyLoad.mkDom {[ 0%nat := {[ "loaded" ]} ]} ∅ []) 0%nat)
    by (apply (bool_decide_unpack _); vm_compute; exact I).
  split; [exact H|].
  exact (loaded_is_kept _ _ _ _ H).
Defined.

(** X25 for a report of two entries. *)
Lemma observerCallback_marks_targets_witness :
  (LazyLoad.mkEntry 1 true ∈ [LazyLoad.mkEntry 0 false; LazyLoad.mkEntry 1 true]) /\
  ("loaded" ∈ LazyLoad.classList
     (LazyLoad.observerCallback [LazyLoad.mkEntry 0 false; LazyLoad.mkEntry 1 true]
        (LazyLoad.mkDom ∅ {[0%nat; 1%nat]} [])) 1%nat).
Proof.
  assert (H : LazyLoad.mkEntry 1 true ∈ [LazyLoad.mkEntry 0 false; LazyLoad.mkEntry 1 true])
    by (right; left).
  split; [exact H|].
  exact (proj1 (observerCallback_marks_targets _ (LazyLoad.mkDom ∅ {[0%nat; 1%nat]} []) _ H)).
Defined.

(** X27 for a quick swipe to the right at the first of three images. *)
Lemma handleGesture_swipes_witness :
  Controls.currentImageIndex
    (Controls.handleGesture 80 120 (Controls.mkGallery (Num 0) [tt; tt; tt] [tt; tt; tt]))
  = Num 2.
Proof.
  refine (proj1 (proj1 (proj2 (handleGesture_swipes
            (Controls.mkGallery (Num 0) [tt; tt; tt] [tt; tt; tt]) 0 80 120 eq_refl _)) _ _));
    cbn; lia.
Defined.
